(** * iterable-js: a shallow embedding of the Iterable wrapper and of the
      lazy-combination engine, with the properties of its specification.

    The development has two layers.

    - [Js]: the fragment of JavaScript the wrapper of [src/iterable.js]
      and [src/internal/defaultIfEmpty.js] run on: values, the store of
      mutable objects (generator objects, generator functions, Iterable
      instances), the iteration protocol ([Symbol.iterator], [next],
      [return]) and the [for ... of] loop.
    - the operators whose files are not part of the sources at hand
      ([cache], [split], [zip], [equal]) are modelled from the
      specification, each in a module of its own.

    Numbers are integers ([Z]); arrays are immutable and carried by value;
    a user generator function is described by the finite list of values
    its body yields. *)

From Stdlib Require Import ZArith DecimalString.
From stdpp Require Import gmap strings list.

Local Open Scope Z_scope.
Local Open Scope string_scope.

(* ===================================================================== *)
(** ** Values, property keys and the store                               *)
(* ===================================================================== *)

Module Js.

(** JavaScript values. Objects with mutable state are references into the
    store: [VGenFn f] a generator function, [VGen g] a generator object
    (a single-pass producer), [VIterable l] an instance of the class
    [Iterable], seen through the Proxy its constructor returns.
    [VFunction] and [VPrototype] stand for the functions and the prototype
    objects that the model does not look into. *)
#[warnings="-register-all"]
Inductive Value : Type :=
| VUndefined
| VNull
| VBool (b : bool)
| VNum (n : Z)
| VStr (s : string)
| VArray (xs : list Value)
| VGenFn (f : nat)
| VGen (g : nat)
| VIterable (l : nat)
| VSymbol (description : string)
| VFunction (name : string)
| VPrototype (className : string).

(** A property key is a string or a symbol, never a number. *)
Inductive PropertyKey : Type :=
| PKString (s : string)
| PKSymbol (description : string).

(** [ITERATOR] of ./utils is the well-known symbol. *)
Definition ITERATOR : PropertyKey := PKSymbol "Symbol.iterator".

Definition PropertyKey_eqb (a b : PropertyKey) : bool :=
  match a, b with
  | PKString x, PKString y => String.eqb x y
  | PKSymbol x, PKSymbol y => String.eqb x y
  | _, _ => false
  end.

(** [ToPropertyKey] of the language: the key that [o[v]] looks up. An
    integer becomes its decimal numeral. For an object (an array, a
    function, an instance) the key is a name that stands for its string,
    which is not computed here; the statements below use the keys of
    numbers and of strings. *)
Definition Z_to_string (n : Z) : string := NilZero.string_of_int (Z.to_int n).

Definition ToPropertyKey (v : Value) : PropertyKey :=
  match v with
  | VUndefined => PKString "undefined"
  | VNull => PKString "null"
  | VBool true => PKString "true"
  | VBool false => PKString "false"
  | VNum n => PKString (Z_to_string n)
  | VStr s => PKString s
  | VArray _ => PKString "[object Array]"
  | VGenFn _ => PKString "[object GeneratorFunction]"
  | VGen _ => PKString "[object Generator]"
  | VIterable _ => PKString "[object Object]"
  | VSymbol d => PKSymbol d
  | VFunction name => PKString name
  | VPrototype _ => PKString "[object Object]"
  end.

(** The value a Proxy trap receives for a key. *)
Definition key_value (k : PropertyKey) : Value :=
  match k with
  | PKString s => VStr s
  | PKSymbol d => VSymbol d
  end.

(** The body of a generator function: either a user body, which yields
    the given values in order and returns, or the body that
    [defaultIfEmpty] builds, closed over its two arguments. *)
Inductive GenBody : Type :=
| BYields (xs : list Value)
| BDefaultIfEmpty (iterable value : Value).

(** A generator function object: its body, and whether its own
    [Symbol.iterator] property holds the function itself. *)
Record GenFnCell : Type := mkGenFnCell {
  body : GenBody;
  self_iter : bool
}.

(** The store. [gens] maps a generator object to the values it has yet
    to yield; [iterables] maps an Iterable instance to its [it] field. *)
Record Store : Type := mkStore {
  genfns : gmap nat GenFnCell;
  gens : gmap nat (list Value);
  iterables : gmap nat Value
}.

Definition empty_store : Store := mkStore ∅ ∅ ∅.

Definition set_gen (g : nat) (rest : list Value) (σ : Store) : Store :=
  mkStore (genfns σ) (<[g := rest]> (gens σ)) (iterables σ).

Definition set_genfn (f : nat) (c : GenFnCell) (σ : Store) : Store :=
  mkStore (<[f := c]> (genfns σ)) (gens σ) (iterables σ).

Definition set_iterable (l : nat) (it : Value) (σ : Store) : Store :=
  mkStore (genfns σ) (gens σ) (<[l := it]> (iterables σ)).

(** ** Outcomes *)

Inductive Error : Type :=
| TypeError (message : string)
| BadArgumentError (argumentNo : Z) (methodName expectedType : string).

(** Why the model, not the program, stopped. *)
Inductive Fault : Type :=
| OutOfFuel
| Dangling.

Inductive Res (A : Type) : Type :=
| Ok (a : A) (σ : Store)
| Throw (e : Error) (σ : Store)
| Abort (f : Fault).
Arguments Ok {A} a σ.
Arguments Throw {A} e σ.
Arguments Abort {A} f.

(** Computations: state passing with exceptions. *)
Definition M (A : Type) : Type := Store -> Res A.

Definition ret {A} (a : A) : M A := fun σ => Ok a σ.
Definition throw {A} (e : Error) : M A := fun σ => Throw e σ.
Definition bind {A B} (m : M A) (k : A -> M B) : M B := fun σ =>
  match m σ with
  | Ok a σ1 => k a σ1
  | Throw e σ1 => Throw e σ1
  | Abort f => Abort f
  end.

Notation "'let*' x ':=' m 'in' k" := (bind m (fun x => k))
  (at level 10, x pattern, m at level 100, k at level 200).

(** The store an outcome leaves behind. *)
Definition final_store {A} (r : Res A) : option Store :=
  match r with
  | Ok _ σ => Some σ
  | Throw _ σ => Some σ
  | Abort _ => None
  end.

(* ===================================================================== *)
(** ** The iteration protocol                                            *)
(* ===================================================================== *)

(** An iterator object that a [for ... of] loop holds. Array iterators and
    generator objects that the loop itself created are private to the loop
    and carried by value; [IGen g] is a generator object that exists in
    the store and may be shared.

    The generator of [defaultIfEmpty] is suspended at one of three
    places: before its first statement ([IDieStart]), at [yield i]
    ([IDieYield], with the iterator of the enclosing loop and the current
    [flag]), or at [yield value] ([IDieTail]). *)
Inductive Iter : Type :=
| IArray (xs : list Value) (idx : nat)
| IGen (g : nat)
| IBody (rest : list Value)
| IDieStart (iterable value : Value)
| IDieYield (inner : Iter) (flag : bool) (value : Value)
| IDieTail
| IDone.

(** Calling a generator function: a fresh generator object, suspended at
    the start of the body. *)
Definition start_generator (b : GenBody) : Iter :=
  match b with
  | BYields xs => IBody xs
  | BDefaultIfEmpty iterable value => IDieStart iterable value
  end.

(** The characters of a string, as the string iterator produces them. *)
Fixpoint chars (s : string) : list Value :=
  match s with
  | EmptyString => []
  | String c s' => VStr (String c EmptyString) :: chars s'
  end.

(** [v[Symbol.iterator]()]: what [for (const i of v)] does first.
    - an array or a string starts a fresh iterator;
    - a generator object returns itself;
    - a generator function is callable as its own [Symbol.iterator] only
      once it has been marked, and then every call runs the body anew;
    - an Iterable delegates to its [it] field:
      [[ITERATOR]() { return this.it[ITERATOR](); }]. *)
Fixpoint get_iterator (fuel : nat) (v : Value) : M Iter := fun σ =>
  match fuel with
  | O => Abort OutOfFuel
  | S fuel' =>
    match v with
    | VArray xs => Ok (IArray xs 0) σ
    | VStr s => Ok (IArray (chars s) 0) σ
    | VGen g =>
        match gens σ !! g with
        | Some _ => Ok (IGen g) σ
        | None => Abort Dangling
        end
    | VGenFn f =>
        match genfns σ !! f with
        | Some c =>
            if self_iter c then Ok (start_generator (body c)) σ
            else Throw (TypeError "object is not iterable") σ
        | None => Abort Dangling
        end
    | VIterable l =>
        match iterables σ !! l with
        | Some it => get_iterator fuel' it σ
        | None => Abort Dangling
        end
    | _ => Throw (TypeError "object is not iterable") σ
    end
  end.

(** [iter.next()]: [Some x] for [{ value: x, done: false }], [None] for
    [{ done: true }], with the iterator's next state. *)
Fixpoint iter_next (fuel : nat) (iter : Iter) : M (option Value * Iter) := fun σ =>
  match fuel with
  | O => Abort OutOfFuel
  | S fuel' =>
    match iter with
    | IArray xs idx =>
        match xs !! idx with
        | Some x => Ok (Some x, IArray xs (S idx)) σ
        | None => Ok (None, IDone) σ
        end
    | IGen g =>
        match gens σ !! g with
        | Some (x :: rest) => Ok (Some x, IGen g) (set_gen g rest σ)
        | Some [] => Ok (None, IGen g) σ
        | None => Abort Dangling
        end
    | IBody (x :: rest) => Ok (Some x, IBody rest) σ
    | IBody [] => Ok (None, IDone) σ
    | IDieStart iterable value =>
        (* let flag = true; for (const i of iterable) { *)
        match get_iterator fuel' iterable σ with
        | Ok inner σ1 =>
            match iter_next fuel' inner σ1 with
            | Ok (Some i, inner') σ2 => Ok (Some i, IDieYield inner' true value) σ2
            | Ok (None, _) σ2 => Ok (Some value, IDieTail) σ2
            | Throw e σ2 => Throw e σ2
            | Abort f => Abort f
            end
        | Throw e σ1 => Throw e σ1
        | Abort f => Abort f
        end
    | IDieYield inner _ value =>
        (* resumed after [yield i]: flag = false; then the loop goes on *)
        let flag := false in
        match iter_next fuel' inner σ with
        | Ok (Some i, inner') σ1 => Ok (Some i, IDieYield inner' flag value) σ1
        | Ok (None, _) σ1 =>
            if flag then Ok (Some value, IDieTail) σ1 else Ok (None, IDone) σ1
        | Throw e σ1 => Throw e σ1
        | Abort f => Abort f
        end
    | IDieTail => Ok (None, IDone) σ
    | IDone => Ok (None, IDone) σ
    end
  end.

(** Leaving a [for ... of] loop early closes its iterator: [iter.return()]
    when the iterator has such a method. An array iterator has none; a
    generator object finishes; the generator of [defaultIfEmpty], closed
    while suspended inside its loop, closes the iterator of that loop. *)
Fixpoint iter_return (iter : Iter) (σ : Store) : Store :=
  match iter with
  | IArray _ _ => σ
  | IGen g =>
      match gens σ !! g with
      | Some _ => set_gen g [] σ
      | None => σ
      end
  | IBody _ => σ
  | IDieStart _ _ => σ
  | IDieYield inner _ _ => iter_return inner σ
  | IDieTail => σ
  | IDone => σ
  end.

(** Running an iterator to completion and collecting what it yields. *)
Fixpoint drain (fuel : nat) (iter : Iter) : M (list Value) := fun σ =>
  match fuel with
  | O => Abort OutOfFuel
  | S fuel' =>
    match iter_next fuel' iter σ with
    | Ok (Some x, iter') σ1 =>
        match drain fuel' iter' σ1 with
        | Ok xs σ2 => Ok (x :: xs) σ2
        | Throw e σ2 => Throw e σ2
        | Abort f => Abort f
        end
    | Ok (None, _) σ1 => Ok [] σ1
    | Throw e σ1 => Throw e σ1
    | Abort f => Abort f
    end
  end.

(** A complete traversal: [for (const i of v) { collect i }]. *)
Definition traverse (fuel : nat) (v : Value) : M (list Value) :=
  let* iter := get_iterator fuel v in drain fuel iter.

(* ===================================================================== *)
(** ** The class Iterable (src/iterable.js; its text follows the list of
       exports in src/internal/dependency.js)                            *)
(* ===================================================================== *)

(** The operators of the class, one per pair of a static and a prototype
    method. *)
Inductive Op : Type :=
| Op_all
| Op_any
| Op_average
| Op_buffer
| Op_breakWith
| Op_cache
| Op_compose
| Op_concat
| Op_contains
| Op_count
| Op_defaultIfEmpty
| Op_distinct
| Op_distinctAdjacent
| Op_elementAt
| Op_empty
| Op_equal
| Op_filter
| Op_find
| Op_first
| Op_flat
| Op_flatMap
| Op_indexOf
| Op_intercalate
| Op_intersect
| Op_intersperse
| Op_isEmpty
| Op_just
| Op_last
| Op_map
| Op_max
| Op_min
| Op_onDone
| Op_onStart
| Op_onYield
| Op_partition
| Op_range
| Op_reduce
| Op_repeat
| Op_replace
| Op_reverse
| Op_scan
| Op_skip
| Op_skipLast
| Op_skipWhile
| Op_sort
| Op_sorted
| Op_spanWith
| Op_split
| Op_startWith
| Op_step
| Op_sum
| Op_take
| Op_takeLast
| Op_takeWhile
| Op_toArray
| Op_zip.

Definition op_name (op : Op) : string :=
  match op with
  | Op_all => "all"
  | Op_any => "any"
  | Op_average => "average"
  | Op_buffer => "buffer"
  | Op_breakWith => "breakWith"
  | Op_cache => "cache"
  | Op_compose => "compose"
  | Op_concat => "concat"
  | Op_contains => "contains"
  | Op_count => "count"
  | Op_defaultIfEmpty => "defaultIfEmpty"
  | Op_distinct => "distinct"
  | Op_distinctAdjacent => "distinctAdjacent"
  | Op_elementAt => "elementAt"
  | Op_empty => "empty"
  | Op_equal => "equal"
  | Op_filter => "filter"
  | Op_find => "find"
  | Op_first => "first"
  | Op_flat => "flat"
  | Op_flatMap => "flatMap"
  | Op_indexOf => "indexOf"
  | Op_intercalate => "intercalate"
  | Op_intersect => "intersect"
  | Op_intersperse => "intersperse"
  | Op_isEmpty => "isEmpty"
  | Op_just => "just"
  | Op_last => "last"
  | Op_map => "map"
  | Op_max => "max"
  | Op_min => "min"
  | Op_onDone => "onDone"
  | Op_onStart => "onStart"
  | Op_onYield => "onYield"
  | Op_partition => "partition"
  | Op_range => "range"
  | Op_reduce => "reduce"
  | Op_repeat => "repeat"
  | Op_replace => "replace"
  | Op_reverse => "reverse"
  | Op_scan => "scan"
  | Op_skip => "skip"
  | Op_skipLast => "skipLast"
  | Op_skipWhile => "skipWhile"
  | Op_sort => "sort"
  | Op_sorted => "sorted"
  | Op_spanWith => "spanWith"
  | Op_split => "split"
  | Op_startWith => "startWith"
  | Op_step => "step"
  | Op_sum => "sum"
  | Op_take => "take"
  | Op_takeLast => "takeLast"
  | Op_takeWhile => "takeWhile"
  | Op_toArray => "toArray"
  | Op_zip => "zip"
  end.

Definition all_ops : list Op :=
  [Op_all; Op_any; Op_average; Op_buffer; Op_breakWith;
   Op_cache; Op_compose; Op_concat; Op_contains; Op_count;
   Op_defaultIfEmpty; Op_distinct; Op_distinctAdjacent; Op_elementAt; Op_empty;
   Op_equal; Op_filter; Op_find; Op_first; Op_flat;
   Op_flatMap; Op_indexOf; Op_intercalate; Op_intersect; Op_intersperse;
   Op_isEmpty; Op_just; Op_last; Op_map; Op_max;
   Op_min; Op_onDone; Op_onStart; Op_onYield; Op_partition;
   Op_range; Op_reduce; Op_repeat; Op_replace; Op_reverse;
   Op_scan; Op_skip; Op_skipLast; Op_skipWhile; Op_sort;
   Op_sorted; Op_spanWith; Op_split; Op_startWith; Op_step;
   Op_sum; Op_take; Op_takeLast; Op_takeWhile; Op_toArray;
   Op_zip].

Definition has_method (op : Op) : bool :=
  match op with
  | Op_just => false
  | Op_range => false
  | _ => true
  end.

(** [args[n]]: a parameter that the caller did not supply is
    [undefined]. *)
Definition arg (n : nat) (args : list Value) : Value :=
  default VUndefined (args !! n).

(** [s === index] for a number [s]: strict equality never converts. *)
Definition num_strict_eq (s : Z) (index : Value) : bool :=
  match index with
  | VNum n => Z.eqb s n
  | _ => false
  end.

(** [name === 'GeneratorFunction'] and the like, for a string literal. *)
Definition str_strict_eq (v : Value) (literal : string) : bool :=
  match v with
  | VStr s => String.eqb s literal
  | _ => false
  end.

(** [this.it]. Read through the Proxy the outcome is the same: ['it' in
    target] holds, so the trap answers [target['it']]. *)
Definition read_it (this : nat) : M Value := fun σ =>
  match iterables σ !! this with
  | Some it => Ok it σ
  | None => Abort Dangling
  end.

(** The loop of [get]:
<<
    let s = 0;
    for (const i of it) {
      if (s === index) { return i; }
      s += 1;
    }
    return undefined;
>>
    The [return] inside the loop closes the iterator. *)
Fixpoint get_loop (fuel : nat) (iter : Iter) (s : Z) (index : Value) : M Value := fun σ =>
  match fuel with
  | O => Abort OutOfFuel
  | S fuel' =>
    match iter_next fuel' iter σ with
    | Ok (Some i, iter') σ1 =>
        if num_strict_eq s index then Ok i (iter_return iter' σ1)
        else get_loop fuel' iter' (s + 1) index σ1
    | Ok (None, _) σ1 => Ok VUndefined σ1
    | Throw e σ1 => Throw e σ1
    | Abort f => Abort f
    end
  end.

(** [Iterable.prototype.get]. *)
Definition get (fuel : nat) (this : nat) (index : Value) : M Value :=
  let* it := read_it this in
  let* iter := get_iterator fuel it in
  get_loop fuel iter 0 index.

(** [Iterable.prototype[ITERATOR]]: [return this.it[ITERATOR]();]. *)
Definition iterator_method (fuel : nat) (this : nat) : M Iter :=
  let* it := read_it this in
  get_iterator fuel it.

(** [it.constructor.name]. Reading a property of [undefined] or [null]
    throws a TypeError; every other value of the model finds
    [constructor] on its prototype chain ([Value] has no object made
    without one, such as [Object.create(null)]). The prototype of a
    generator object has the plain object [%GeneratorFunction.prototype%]
    for constructor, whose [name] is the empty one inherited from
    [Function.prototype]. *)
Definition constructor_name (it : Value) : M Value :=
  match it with
  | VUndefined => throw (TypeError "Cannot read property 'constructor' of undefined")
  | VNull => throw (TypeError "Cannot read property 'constructor' of null")
  | VBool _ => ret (VStr "Boolean")
  | VNum _ => ret (VStr "Number")
  | VStr _ => ret (VStr "String")
  | VArray _ => ret (VStr "Array")
  | VGenFn _ => ret (VStr "GeneratorFunction")
  | VGen _ => ret (VStr "")
  | VIterable _ => ret (VStr "Iterable")
  | VSymbol _ => ret (VStr "Symbol")
  | VFunction _ => ret (VStr "Function")
  | VPrototype className => ret (VStr className)
  end.

(** [it[ITERATOR] = it]: reached when the constructor of [it] is named
    GeneratorFunction. For a generator function the mark is recorded; the
    model keeps no properties for the other values. *)
Definition mark_self_starting (it : Value) : M unit := fun σ =>
  match it with
  | VGenFn f =>
      match genfns σ !! f with
      | Some c => Ok tt (set_genfn f (mkGenFnCell (body c) true) σ)
      | None => Abort Dangling
      end
  | _ => Ok tt σ
  end.

(** [this.it = it; return new Proxy(this, ...)]: the instance takes a
    fresh place in the store. *)
Definition new_instance (it : Value) : M Value := fun σ =>
  let l := fresh (dom (iterables σ)) in
  Ok (VIterable l) (set_iterable l it σ).

(** A function expression [function* () { ... }]: a fresh generator
    function object, with no [Symbol.iterator] property of its own. *)
Definition new_generator_function (b : GenBody) : M Value := fun σ =>
  let f := fresh (dom (genfns σ)) in
  Ok (VGenFn f) (set_genfn f (mkGenFnCell b false) σ).

(** The names that [index in target] finds on an instance: its own field,
    the methods of [Iterable.prototype], and what [Object.prototype]
    provides. *)
Definition class_methods : list string :=
  "constructor" :: "get" :: map op_name (filter (fun op => has_method op = true) all_ops).

Definition object_prototype_members : list string :=
  ["constructor"; "__defineGetter__"; "__defineSetter__"; "hasOwnProperty";
   "__lookupGetter__"; "__lookupSetter__"; "isPrototypeOf";
   "propertyIsEnumerable"; "toString"; "valueOf"; "__proto__";
   "toLocaleString"].

Definition string_in (s : string) (l : list string) : bool :=
  existsb (String.eqb s) l.

Definition in_target (index : PropertyKey) : bool :=
  match index with
  | PKString s =>
      String.eqb s "it" || string_in s class_methods
      || string_in s object_prototype_members
  | PKSymbol d => String.eqb d "Symbol.iterator"
  end.

(** [target[index]] for a key that the instance has. *)
Definition get_member (target : nat) (index : PropertyKey) : M Value :=
  match index with
  | PKString s =>
      if String.eqb s "it" then read_it target
      else if String.eqb s "constructor" then ret (VFunction "Iterable")
      else if string_in s class_methods then ret (VFunction ("Iterable.prototype." ++ s))
      else if String.eqb s "__proto__" then ret (VPrototype "Iterable")
      else ret (VFunction ("Object.prototype." ++ s))
  | PKSymbol d => ret (VFunction "Iterable.prototype[Symbol.iterator]")
  end.

Section IterableClass.

(** What ./internal/utils and the other operator files provide; those
    files are not among the sources. [isIterable] and [isNumber] are
    predicates on a value, [defineField] names an operator for its error
    messages, [internal op] is the function that the file of [op]
    exports. *)
Variable isIterable : Value -> Store -> bool.
Variable isNumber : Value -> bool.
Variable defineField : string -> string.
Variable internal : Op -> list Value -> M Value.

(** The constructor:
<<
    const it = iterable;
    if (it.constructor.name === 'GeneratorFunction') {
      it[ITERATOR] = it;
      this.it = it;
    } else if (isIterable(it)) {
      this.it = it;
    } else {
      throw new BadArgumentError(1, 'Iterable.<constructor>', 'Iterable or Generator');
    }
    this.it = it;
    return new Proxy(this, { get(target, index) { ... } });
>> *)
Definition constructor (iterable : Value) : M Value :=
  let it := iterable in
  let* name := constructor_name it in
  if str_strict_eq name "GeneratorFunction" then
    let* _ := mark_self_starting it in
    new_instance it
  else
    let* iterable_ok := (fun σ => Ok (isIterable it σ) σ) in
    if (iterable_ok : bool) then new_instance it
    else throw (BadArgumentError 1 "Iterable.<constructor>" "Iterable or Generator").

(** The [get] trap of the Proxy:
<<
    get(target, index) {
      if (index in target) { return target[index]; }
      if (isNumber(index)) { return target.get(index); }
      return undefined;
    }
>>
    The trap receives the property key. *)
Definition proxy_get (fuel : nat) (target : nat) (index : PropertyKey) : M Value :=
  if in_target index then get_member target index
  else if isNumber (key_value index) then get fuel target (key_value index)
  else ret VUndefined.

(** The expression [seq[v]] on an instance: the key of [v] goes to the
    trap. *)
Definition index_access (fuel : nat) (seq : nat) (v : Value) : M Value :=
  proxy_get fuel seq (ToPropertyKey v).

(** Modelled from the spec: [IterableCheck] of ./internal/utils, which is
    not among the sources. The capability check used as a precondition
    gate: failing it raises a bad-argument error identifying the argument
    position and the operator name; it has no side effects. *)
Definition IterableCheck (iterable : Value) (argumentNo : Z) (field : string) : M unit := fun σ =>
  if isIterable iterable σ then Ok tt σ
  else Throw (BadArgumentError argumentNo field "Iterable") σ.

(** src/internal/defaultIfEmpty.js:
<<
    const FIELD = defineField('defaultIfEmpty');
    export default (iterable, value) => {
      IterableCheck(iterable, 1, FIELD);
      return new Iterable(function* () {
        let flag = true;
        for (const i of iterable) { yield i; flag = false; }
        if (flag) { yield value; }
      });
    };
>>
    The body of the generator is [BDefaultIfEmpty]; [iter_next] runs it. *)
Definition FIELD : string := defineField "defaultIfEmpty".

Definition defaultIfEmpty (iterable value : Value) : M Value :=
  let* _ := IterableCheck iterable 1 FIELD in
  let* fn := new_generator_function (BDefaultIfEmpty iterable value) in
  constructor fn.

(** The static methods: each hands its parameters to the operator. *)
Definition static_call (op : Op) (args : list Value) : M Value :=
  match op with
  | Op_all => internal Op_all [arg 0 args; arg 1 args]
      (* static all(it, predicate) { return all(it, predicate); } *)
  | Op_any => internal Op_any [arg 0 args; arg 1 args]
      (* static any(it, predicate) { return any(it, predicate); } *)
  | Op_average => internal Op_average [arg 0 args]
      (* static average(it) { return average(it); } *)
  | Op_buffer => internal Op_buffer [arg 0 args; arg 1 args]
      (* static buffer(it, amount) { return buffer(it, amount); } *)
  | Op_breakWith => internal Op_breakWith [arg 0 args; arg 1 args]
      (* static breakWith(it, predicate) { return breakWith(it, predicate); } *)
  | Op_cache => internal Op_cache [arg 0 args]
      (* static cache(it) { return cache(it); } *)
  | Op_compose => internal Op_compose ([arg 0 args] ++ drop 1 args)
      (* static compose(it, ...composers) { return compose(it, ...composers); } *)
  | Op_concat => internal Op_concat args
      (* static concat(...its) { return concat(...its); } *)
  | Op_contains => internal Op_contains [arg 0 args; arg 1 args]
      (* static contains(it, value) { return contains(it, value); } *)
  | Op_count => internal Op_count [arg 0 args]
      (* static count(it) { return count(it); } *)
  | Op_defaultIfEmpty => defaultIfEmpty (arg 0 args) (arg 1 args)
      (* static defaultIfEmpty(it, value) { return defaultIfEmpty(it, value); } *)
  | Op_distinct => internal Op_distinct [arg 0 args]
      (* static distinct(it) { return distinct(it); } *)
  | Op_distinctAdjacent => internal Op_distinctAdjacent [arg 0 args]
      (* static distinctAdjacent(it) { return distinctAdjacent(it); } *)
  | Op_elementAt => internal Op_elementAt [arg 0 args; arg 1 args]
      (* static elementAt(it, index) { return elementAt(it, index); } *)
  | Op_empty => internal Op_empty []
      (* static empty() { return empty(); } *)
  | Op_equal => internal Op_equal [arg 0 args; arg 1 args]
      (* static equal(it, other) { return equal(it, other); } *)
  | Op_filter => internal Op_filter [arg 0 args; arg 1 args]
      (* static filter(it, fn) { return filter(it, fn); } *)
  | Op_find => internal Op_find [arg 0 args; arg 1 args]
      (* static find(it, predicate) { return find(it, predicate); } *)
  | Op_first => internal Op_first [arg 0 args; arg 1 args]
      (* static first(it, predicate) { return first(it, predicate); } *)
  | Op_flat => internal Op_flat [arg 0 args]
      (* static flat(it) { return flat(it); } *)
  | Op_flatMap => internal Op_flatMap [arg 0 args; arg 1 args]
      (* static flatMap(it, mapper) { return flatMap(it, mapper); } *)
  | Op_indexOf => internal Op_indexOf [arg 0 args; arg 1 args]
      (* static indexOf(it, value) { return indexOf(it, value); } *)
  | Op_intercalate => internal Op_intercalate [arg 0 args; arg 1 args]
      (* static intercalate(it, other) { return intercalate(it, other); } *)
  | Op_intersect => internal Op_intersect [arg 0 args; arg 1 args]
      (* static intersect(it, other) { return intersect(it, other); } *)
  | Op_intersperse => internal Op_intersperse [arg 0 args; arg 1 args]
      (* static intersperse(it, value) { return intersperse(it, value); } *)
  | Op_isEmpty => internal Op_isEmpty [arg 0 args]
      (* static isEmpty(it) { return isEmpty(it); } *)
  | Op_just => internal Op_just [arg 0 args]
      (* static just(value) { return just(value); } *)
  | Op_last => internal Op_last [arg 0 args; arg 1 args]
      (* static last(it, predicate) { return last(it, predicate); } *)
  | Op_map => internal Op_map [arg 0 args; arg 1 args]
      (* static map(it, fn) { return map(it, fn); } *)
  | Op_max => internal Op_max [arg 0 args]
      (* static max(it) { return max(it); } *)
  | Op_min => internal Op_min [arg 0 args]
      (* static min(it) { return min(it); } *)
  | Op_onDone => internal Op_onDone [arg 0 args; arg 1 args]
      (* static onDone(it, fn) { return onDone(it, fn); } *)
  | Op_onStart => internal Op_onStart [arg 0 args; arg 1 args]
      (* static onStart(it, fn) { return onStart(it, fn); } *)
  | Op_onYield => internal Op_onYield [arg 0 args; arg 1 args]
      (* static onYield(it, fn) { return onYield(it, fn); } *)
  | Op_partition => internal Op_partition [arg 0 args; arg 1 args]
      (* static partition(it, predicate) { return partition(it, predicate); } *)
  | Op_range => internal Op_range [arg 0 args; arg 1 args; arg 2 args]
      (* static range(start, end, steps) { return range(start, end, steps); } *)
  | Op_reduce => internal Op_reduce [arg 0 args; arg 1 args]
      (* static reduce(it, reducer) { return reduce(it, reducer); } *)
  | Op_repeat => internal Op_repeat [arg 0 args; arg 1 args]
      (* static repeat(it, amount) { return repeat(it, amount); } *)
  | Op_replace => internal Op_replace [arg 0 args; arg 1 args; arg 2 args]
      (* static replace(it, index, value) { return replace(it, index, value); } *)
  | Op_reverse => internal Op_reverse [arg 0 args]
      (* static reverse(it) { return reverse(it); } *)
  | Op_scan => internal Op_scan [arg 0 args; arg 1 args]
      (* static scan(it, reducer) { return scan(it, reducer); } *)
  | Op_skip => internal Op_skip [arg 0 args; arg 1 args]
      (* static skip(it, amount) { return skip(it, amount); } *)
  | Op_skipLast => internal Op_skipLast [arg 0 args; arg 1 args]
      (* static skipLast(it, amount) { return skipLast(it, amount); } *)
  | Op_skipWhile => internal Op_skipWhile [arg 0 args; arg 1 args]
      (* static skipWhile(it, predicate) { return skipWhile(it, predicate); } *)
  | Op_sort => internal Op_sort [arg 0 args; arg 1 args]
      (* static sort(it, comparator) { return sort(it, comparator); } *)
  | Op_sorted => internal Op_sorted [arg 0 args; arg 1 args]
      (* static sorted(it, comparator) { return sorted(it, comparator); } *)
  | Op_spanWith => internal Op_spanWith [arg 0 args; arg 1 args]
      (* static spanWith(it, predicate) { return spanWith(it, predicate); } *)
  | Op_split => internal Op_split [arg 0 args; arg 1 args]
      (* static split(it, amount) { return split(it, amount); } *)
  | Op_startWith => internal Op_startWith ([arg 0 args] ++ drop 1 args)
      (* static startWith(it, ...its) { return startWith(it, ...its); } *)
  | Op_step => internal Op_step [arg 0 args; arg 1 args]
      (* static step(it, amount) { return step(it, amount); } *)
  | Op_sum => internal Op_sum [arg 0 args]
      (* static sum(it) { return sum(it); } *)
  | Op_take => internal Op_take [arg 0 args; arg 1 args]
      (* static take(it, amount) { return take(it, amount); } *)
  | Op_takeLast => internal Op_takeLast [arg 0 args; arg 1 args]
      (* static takeLast(it, amount) { return takeLast(it, amount); } *)
  | Op_takeWhile => internal Op_takeWhile [arg 0 args; arg 1 args]
      (* static takeWhile(it, predicate) { return takeWhile(it, predicate); } *)
  | Op_toArray => internal Op_toArray [arg 0 args]
      (* static toArray(it) { return toArray(it); } *)
  | Op_zip => internal Op_zip [arg 0 args; arg 1 args]
      (* static zip(its, fn) { return zip(its, fn); } *)
  end.

(** The prototype methods: each hands [this.it] and its parameters to the
    operator. *)
Definition method_call (fuel : nat) (op : Op) (this : nat) (args : list Value) : M Value :=
  match op with
  | Op_all => let* it := read_it this in internal Op_all [it; arg 0 args]
      (* all(predicate) { return all(this.it, predicate); } *)
  | Op_any => let* it := read_it this in internal Op_any [it; arg 0 args]
      (* any(predicate) { return any(this.it, predicate); } *)
  | Op_average => let* it := read_it this in internal Op_average [it]
      (* average() { return average(this.it); } *)
  | Op_buffer => let* it := read_it this in internal Op_buffer [it; arg 0 args]
      (* buffer(amount) { return buffer(this.it, amount); } *)
  | Op_breakWith => let* it := read_it this in internal Op_breakWith [it; arg 0 args]
      (* breakWith(predicate) { return breakWith(this.it, predicate); } *)
  | Op_cache => let* it := read_it this in internal Op_cache [it]
      (* cache() { return cache(this.it); } *)
  | Op_compose => let* it := read_it this in internal Op_compose (it :: args)
      (* compose(...composers) { return compose(this.it, ...composers); } *)
  | Op_concat => let* it := read_it this in internal Op_concat (it :: args)
      (* concat(...its) { return concat(this.it, ...its); } *)
  | Op_contains => let* it := read_it this in internal Op_contains [it; arg 0 args]
      (* contains(value) { return contains(this.it, value); } *)
  | Op_count => let* it := read_it this in internal Op_count [it]
      (* count() { return count(this.it); } *)
  | Op_defaultIfEmpty => let* it := read_it this in defaultIfEmpty it (arg 0 args)
      (* defaultIfEmpty(value) { return defaultIfEmpty(this.it, value); } *)
  | Op_distinct => let* it := read_it this in internal Op_distinct [it]
      (* distinct() { return distinct(this.it); } *)
  | Op_distinctAdjacent => let* it := read_it this in internal Op_distinctAdjacent [it]
      (* distinctAdjacent() { return distinctAdjacent(this.it); } *)
  | Op_elementAt => let* it := read_it this in internal Op_elementAt [it; arg 0 args]
      (* elementAt(index) { return elementAt(this.it, index); } *)
  | Op_empty => internal Op_empty [VIterable this]
      (* empty() { return empty(this); } *)
  | Op_equal => let* it := read_it this in internal Op_equal [it; arg 0 args]
      (* equal(other) { return equal(this.it, other); } *)
  | Op_filter => let* it := read_it this in internal Op_filter [it; arg 0 args]
      (* filter(fn) { return filter(this.it, fn); } *)
  | Op_find => let* it := read_it this in internal Op_find [it; arg 0 args]
      (* find(predicate) { return find(this.it, predicate); } *)
  | Op_first => let* it := read_it this in internal Op_first [it; arg 0 args]
      (* first(predicate) { return first(this.it, predicate); } *)
  | Op_flat => let* it := read_it this in internal Op_flat [it]
      (* flat() { return flat(this.it); } *)
  | Op_flatMap => let* it := read_it this in internal Op_flatMap [it; arg 0 args]
      (* flatMap(mapper) { return flatMap(this.it, mapper); } *)
  | Op_indexOf => let* it := read_it this in internal Op_indexOf [it; arg 0 args]
      (* indexOf(value) { return indexOf(this.it, value); } *)
  | Op_intercalate => let* it := read_it this in internal Op_intercalate [it; arg 0 args]
      (* intercalate(other) { return intercalate(this.it, other); } *)
  | Op_intersect => let* it := read_it this in internal Op_intersect [it; arg 0 args]
      (* intersect(other) { return intersect(this.it, other); } *)
  | Op_intersperse => let* it := read_it this in internal Op_intersperse [it; arg 0 args]
      (* intersperse(value) { return intersperse(this.it, value); } *)
  | Op_isEmpty => let* it := read_it this in internal Op_isEmpty [it]
      (* isEmpty() { return isEmpty(this.it); } *)
  | Op_just => throw (TypeError "just is not a function")
      (* the class has no method of that name *)
  | Op_last => let* it := read_it this in internal Op_last [it; arg 0 args]
      (* last(predicate) { return last(this.it, predicate); } *)
  | Op_map => let* it := read_it this in internal Op_map [it; arg 0 args]
      (* map(fn) { return map(this.it, fn); } *)
  | Op_max => let* it := read_it this in internal Op_max [it]
      (* max() { return max(this.it); } *)
  | Op_min => let* it := read_it this in internal Op_min [it]
      (* min() { return min(this.it); } *)
  | Op_onDone => let* it := read_it this in internal Op_onDone [it; arg 0 args]
      (* onDone(fn) { return onDone(this.it, fn); } *)
  | Op_onStart => let* it := read_it this in internal Op_onStart [it; arg 0 args]
      (* onStart(fn) { return onStart(this.it, fn); } *)
  | Op_onYield => let* it := read_it this in internal Op_onYield [it; arg 0 args]
      (* onYield(fn) { return onYield(this.it, fn); } *)
  | Op_partition => let* it := read_it this in internal Op_partition [it; arg 0 args]
      (* partition(predicate) { return partition(this.it, predicate); } *)
  | Op_range => throw (TypeError "range is not a function")
      (* the class has no method of that name *)
  | Op_reduce => let* it := read_it this in internal Op_reduce [it; arg 0 args]
      (* reduce(reducer) { return reduce(this.it, reducer); } *)
  | Op_repeat => let* it := read_it this in internal Op_repeat [it; arg 0 args]
      (* repeat(amount) { return repeat(this.it, amount); } *)
  | Op_replace => let* it := read_it this in internal Op_replace [it; arg 0 args; arg 1 args]
      (* replace(index, value) { return replace(this.it, index, value); } *)
  | Op_reverse => let* it := read_it this in internal Op_reverse [it]
      (* reverse() { return reverse(this.it); } *)
  | Op_scan => let* it := read_it this in internal Op_scan [it; arg 0 args]
      (* scan(reducer) { return scan(this.it, reducer); } *)
  | Op_skip => let* it := read_it this in internal Op_skip [it; arg 0 args]
      (* skip(amount) { return skip(this.it, amount); } *)
  | Op_skipLast => let* it := read_it this in internal Op_skipLast [it; arg 0 args]
      (* skipLast(amount) { return skipLast(this.it, amount); } *)
  | Op_skipWhile => let* it := read_it this in internal Op_skipWhile [it; arg 0 args]
      (* skipWhile(predicate) { return skipWhile(this.it, predicate); } *)
  | Op_sort => let* it := read_it this in internal Op_sort [it; arg 0 args]
      (* sort(comparator) { return sort(this.it, comparator); } *)
  | Op_sorted => let* it := read_it this in internal Op_sorted [it; arg 0 args]
      (* sorted(comparator) { return sorted(this.it, comparator); } *)
  | Op_spanWith => let* it := read_it this in internal Op_spanWith [it; arg 0 args]
      (* spanWith(predicate) { return spanWith(this.it, predicate); } *)
  | Op_split => let* it := read_it this in internal Op_split [it; arg 0 args]
      (* split(amount) { return split(this.it, amount); } *)
  | Op_startWith => let* it := read_it this in internal Op_startWith (it :: args)
      (* startWith(...its) { return startWith(this.it, ...its); } *)
  | Op_step => let* it := read_it this in internal Op_step [it; arg 0 args]
      (* step(amount) { return step(this.it, amount); } *)
  | Op_sum => let* it := read_it this in internal Op_sum [it]
      (* sum() { return sum(this.it); } *)
  | Op_take => let* it := read_it this in internal Op_take [it; arg 0 args]
      (* take(amount) { return take(this.it, amount); } *)
  | Op_takeLast => let* it := read_it this in internal Op_takeLast [it; arg 0 args]
      (* takeLast(amount) { return takeLast(this.it, amount); } *)
  | Op_takeWhile => let* it := read_it this in internal Op_takeWhile [it; arg 0 args]
      (* takeWhile(predicate) { return takeWhile(this.it, predicate); } *)
  | Op_toArray => let* it := read_it this in internal Op_toArray [it]
      (* toArray() { return toArray(this.it); } *)
  | Op_zip => let* it := read_it this in
      let* its := traverse fuel (arg 0 args) in
      internal Op_zip [VArray (it :: its); arg 1 args]
      (* zip(its, fn) { return zip([this.it, ...its], fn); } *)
  end.

End IterableClass.

(** Modelled from the spec: [isIterable] of ./internal/utils, which is not
    among the sources. True iff the value exposes the iteration
    capability, a callable [Symbol.iterator]. *)
Definition isIterable_spec (v : Value) (σ : Store) : bool :=
  match v with
  | VArray _ | VStr _ | VGen _ | VIterable _ => true
  | VGenFn f =>
      match genfns σ !! f with
      | Some c => self_iter c
      | None => false
      end
  | _ => false
  end.

(** ** Notions that the statements use *)

(** A multi-pass source with elements [xs]: every [Symbol.iterator] call
    starts from the first element again. An array, a string, a marked
    generator function with a user body, or an Iterable over one of
    these. *)
Inductive multi_pass (σ : Store) : Value -> list Value -> Prop :=
| mp_array xs : multi_pass σ (VArray xs) xs
| mp_string s : multi_pass σ (VStr s) (chars s)
| mp_genfn f xs :
    genfns σ !! f = Some (mkGenFnCell (BYields xs) true) ->
    multi_pass σ (VGenFn f) xs
| mp_iterable l it xs :
    iterables σ !! l = Some it ->
    multi_pass σ it xs ->
    multi_pass σ (VIterable l) xs.

(** An outcome that more fuel cannot change. *)
Definition settled {A} (r : Res A) : Prop := r <> Abort OutOfFuel.

(** The Iterable instances and the generator functions of two stores are
    the same; only generator objects may have advanced. *)
Definition same_objects (σ σ' : Store) : Prop :=
  iterables σ' = iterables σ /\ genfns σ' = genfns σ.

Definition preserves {A} (r : Res A) (σ : Store) : Prop :=
  forall σ', final_store r = Some σ' -> same_objects σ σ'.

(** The store [σ'] has every object of [σ], each generator object in the
    state it has in [σ], and possibly further generator functions and
    Iterable instances. *)
Definition extends (σ σ' : Store) : Prop :=
  gens σ' = gens σ /\ genfns σ ⊆ genfns σ' /\ iterables σ ⊆ iterables σ'.

(** [new Iterable([10, 20, 30])] in the empty store, and an Iterable over
    a generator object that has 1, 2, 3 yet to yield. *)
Definition sample_array : Value := VArray [VNum 10; VNum 20; VNum 30].
Definition sample_store : Store := set_iterable 0 sample_array empty_store.
Definition sample_generator_store : Store :=
  set_iterable 0 (VGen 0) (set_gen 0 [VNum 1; VNum 2; VNum 3] empty_store).

(** The operators that take a source: both call shapes exist and the
    static one has the source for first parameter. [zip] takes its
    sources as one array; [just] and [range] have the static shape only;
    [empty] takes no source, its static shape calls the operator without
    argument and its method shape hands it the wrapper. *)
Definition takes_source (op : Op) : bool :=
  match op with
  | Op_empty | Op_just | Op_range | Op_zip => false
  | _ => true
  end.

End Js.

Local Close Scope string_scope.
Local Close Scope Z_scope.

(* ===================================================================== *)
(** ** The memoization subsystem: cache                                  *)
(* ===================================================================== *)

Module Cache.
Section CacheModel.
Context {A : Type}.

(** Modelled from the spec: the source of a Sequence (the file of [cache]
    is not among the sources). A multi-pass source is re-traversable from
    the start; a single-pass source is a suspendable producer with the
    elements it has yet to produce. *)
Inductive Source : Type :=
| MultiPass (elements : list A)
| SinglePass (remaining : list A).

Definition elements_of (S : Source) : list A :=
  match S with
  | MultiPass xs => xs
  | SinglePass xs => xs
  end.

(** Modelled from the spec: the upstream producer that one cache drives,
    instrumented with the number of elements pulled from it and the
    number of times it signalled completion. *)
Record Upstream : Type := mkUpstream {
  pending : list A;
  pulled : nat;
  signalled : nat
}.

(** Modelled from the spec: beginning the one upstream traversal. *)
Definition open (S : Source) : Upstream := mkUpstream (elements_of S) 0 0.

(** Modelled from the spec: pulling the next element from upstream; the
    upstream hands one over or signals completion. *)
Definition pull (u : Upstream) : option A * Upstream :=
  match pending u with
  | x :: rest => (Some x, mkUpstream rest (S (pulled u)) (signalled u))
  | [] => (None, mkUpstream [] (pulled u) (S (signalled u)))
  end.

(** Modelled from the spec: the Replay Buffer, with the upstream it
    drains: an append-only buffer, a cursor marking how much of the
    upstream has been drained, and a terminal flag. *)
Record State : Type := mkState {
  upstream : Upstream;
  buffer : list A;
  cursor : nat;
  terminal : bool
}.

(** Modelled from the spec: [cache]. The buffer starts empty, cursor 0,
    not terminal. *)
Definition cache (S : Source) : State := mkState (open S) [] 0 false.

Inductive Step : Type :=
| Yield (x : A)
| Done.

(** Modelled from the spec: one step of a traversal at ordinal [i]. If
    [i < buffer.length], yield [buffer[i]] directly; else, if not
    terminal, pull the next element from upstream, append it to the buffer
    and yield it; if upstream signals completion, mark terminal and end
    the traversal. *)
Definition step (i : nat) (st : State) : Step * State :=
  match buffer st !! i with
  | Some x => (Yield x, st)
  | None =>
      if terminal st then (Done, st)
      else
        match pull (upstream st) with
        | (Some x, u) =>
            (Yield x, mkState u (buffer st ++ [x]) (S (cursor st)) false)
        | (None, u) =>
            (Done, mkState u (buffer st) (cursor st) true)
        end
  end.

(** A traversal, from ordinal [i] on. *)
Fixpoint traverse_from (fuel : nat) (i : nat) (st : State) : option (list A * State) :=
  match fuel with
  | O => None
  | S fuel' =>
    match step i st with
    | (Yield x, st1) =>
        match traverse_from fuel' (S i) st1 with
        | Some (xs, st2) => Some (x :: xs, st2)
        | None => None
        end
    | (Done, st1) => Some ([], st1)
    end
  end.

Definition traverse (fuel : nat) (st : State) : option (list A * State) :=
  traverse_from fuel 0 st.

(** [m] traversals, one after the other. *)
Fixpoint traverse_times (fuel : nat) (m : nat) (st : State) : option (list (list A) * State) :=
  match m with
  | O => Some ([], st)
  | S m' =>
    match traverse fuel st with
    | Some (xs, st1) =>
        match traverse_times fuel m' st1 with
        | Some (xss, st2) => Some (xs :: xss, st2)
        | None => None
        end
    | None => None
    end
  end.

(** Several traversals in progress at once: each has its ordinal and what
    it has been handed so far; a schedule says whose turn it is. *)
Record Traversal : Type := mkTraversal {
  ordinal : nat;
  seen : list A;
  finished : bool
}.

Definition fresh_traversal : Traversal := mkTraversal 0 [] false.

Definition advance (t : Traversal) (st : State) : Traversal * State :=
  if finished t then (t, st)
  else
    match step (ordinal t) st with
    | (Yield x, st1) => (mkTraversal (S (ordinal t)) (seen t ++ [x]) false, st1)
    | (Done, st1) => (mkTraversal (ordinal t) (seen t) true, st1)
    end.

Fixpoint run_schedule (schedule : list nat) (ts : list Traversal) (st : State)
  : list Traversal * State :=
  match schedule with
  | [] => (ts, st)
  | j :: schedule' =>
    match ts !! j with
    | Some t =>
        let '(t1, st1) := advance t st in
        run_schedule schedule' (<[j := t1]> ts) st1
    | None => run_schedule schedule' ts st
    end
  end.

End CacheModel.
Arguments Source : clear implicits.
Arguments State : clear implicits.
Arguments Upstream : clear implicits.
Arguments Step : clear implicits.
Arguments Traversal : clear implicits.

(** ** Invariants of the Replay Buffer *)
Section CacheInvariants.
Context {A : Type}.

(** The state of a cache whose upstream, of elements [xs], is drained. *)
Definition drained (xs : list A) : State A :=
  mkState (mkUpstream [] (length xs) 1) xs (length xs) true.

(** Replaying indices [0, buffer.length) reproduces the first
    [buffer.length] elements the upstream ever produced; every element
    pulled is in the buffer; the upstream signalled completion at most
    once, and then the cache is terminal. *)
Record replay_inv (xs : list A) (st : State A) : Prop := mkReplayInv {
  inv_split : buffer st ++ pending (upstream st) = xs;
  inv_pulled : pulled (upstream st) = length (buffer st);
  inv_cursor : cursor st = length (buffer st);
  inv_terminal : terminal st = true -> pending (upstream st) = [];
  inv_signalled : signalled (upstream st) = if terminal st then 1 else 0
}.

(** A traversal in progress has been handed a prefix of the elements and
    never runs ahead of the buffer. *)
Record traversal_ok (xs : list A) (st : State A) (t : Traversal A) : Prop :=
  mkTraversalOk {
  ok_seen : seen t = take (ordinal t) xs;
  ok_ordinal : ordinal t <= length (buffer st);
  ok_finished : finished t = true -> terminal st = true
}.

Record schedule_inv (xs : list A) (ts : list (Traversal A)) (st : State A) : Prop :=
  mkScheduleInv {
  sched_replay : replay_inv xs st;
  sched_each : Forall (traversal_ok xs st) ts;
  sched_demand : length (buffer st) = 0
                 \/ Exists (fun t => ordinal t = length (buffer st)) ts
}.

End CacheInvariants.
End Cache.

(* ===================================================================== *)
(** ** The split subsystem: split by count                               *)
(* ===================================================================== *)

Module Split.
Section SplitModel.
Context {A : Type}.

Inductive Branch : Type :=
| BranchA
| BranchB.

(** Modelled from the spec: the state that the two branches of one
    [split] share (the file of [split] is not among the sources): the
    single upstream traversal, the position it has reached, and one
    buffer per branch holding what was produced for that branch and not
    yet delivered to it. *)
Record State : Type := mkState {
  upstream : list A;
  position : nat;
  bufferA : list A;
  bufferB : list A
}.

(** Modelled from the spec: [split(S, k)] starts with nothing driven and
    both buffers empty. *)
Definition split (S : list A) : State := mkState S 0 [] [].

(** Modelled from the spec: the rule of [split]: position < cutoff. *)
Definition classify (cutoff : Z) (position : nat) : Branch :=
  if (Z.of_nat position <? cutoff)%Z then BranchA else BranchB.

(** Modelled from the spec: driving the shared upstream for branch [b].
    Each produced element is classified; an element of the other branch
    is appended to the other branch's buffer instead of being discarded.
    Branch A is a prefix: the first element past the cutoff ends it. *)
Fixpoint drive (cutoff : Z) (b : Branch) (st : list A) (pos : nat) (other : list A)
  : option A * list A * nat * list A :=
  match st with
  | [] => (None, [], pos, other)
  | x :: rest =>
    match b, classify cutoff pos with
    | BranchA, BranchA => (Some x, rest, S pos, other)
    | BranchB, BranchB => (Some x, rest, S pos, other)
    | BranchA, BranchB => (None, rest, S pos, other ++ [x])
    | BranchB, BranchA => drive cutoff b rest (S pos) (other ++ [x])
    end
  end.

(** Modelled from the spec: one step of a traversal of branch [b]: replay
    the branch's buffer first, then continue driving the shared
    upstream. *)
Definition next (cutoff : Z) (b : Branch) (st : State) : option A * State :=
  match b with
  | BranchA =>
      match bufferA st with
      | x :: rest => (Some x, mkState (upstream st) (position st) rest (bufferB st))
      | [] =>
          let '(r, up, pos, other) :=
            drive cutoff BranchA (upstream st) (position st) (bufferB st) in
          (r, mkState up pos [] other)
      end
  | BranchB =>
      match bufferB st with
      | x :: rest => (Some x, mkState (upstream st) (position st) (bufferA st) rest)
      | [] =>
          let '(r, up, pos, other) :=
            drive cutoff BranchB (upstream st) (position st) (bufferA st) in
          (r, mkState up pos other [])
      end
  end.

(** A complete traversal of one branch. *)
Fixpoint traverse (fuel : nat) (cutoff : Z) (b : Branch) (st : State)
  : option (list A * State) :=
  match fuel with
  | O => None
  | S fuel' =>
    match next cutoff b st with
    | (Some x, st1) =>
        match traverse fuel' cutoff b st1 with
        | Some (xs, st2) => Some (x :: xs, st2)
        | None => None
        end
    | (None, st1) => Some ([], st1)
    end
  end.

(** The two branches traversed to the end, one after the other, in
    either order; each gives what branch A and what branch B yielded. *)
Definition branches_A_first (fuel : nat) (cutoff : Z) (S : list A)
  : option (list A * list A) :=
  match traverse fuel cutoff BranchA (split S) with
  | Some (a, st1) =>
      match traverse fuel cutoff BranchB st1 with
      | Some (b, _) => Some (a, b)
      | None => None
      end
  | None => None
  end.

Definition branches_B_first (fuel : nat) (cutoff : Z) (S : list A)
  : option (list A * list A) :=
  match traverse fuel cutoff BranchB (split S) with
  | Some (b, st1) =>
      match traverse fuel cutoff BranchA st1 with
      | Some (a, _) => Some (a, b)
      | None => None
      end
  | None => None
  end.

(** The two branches traversed at different rates: a schedule of steps,
    each naming the branch that takes it; what each branch has been
    handed is recorded. *)
Fixpoint run_schedule (cutoff : Z) (schedule : list Branch)
  (deliveredA deliveredB : list A) (st : State) : list A * list A * State :=
  match schedule with
  | [] => (deliveredA, deliveredB, st)
  | b :: schedule' =>
    match b, next cutoff b st with
    | BranchA, (Some x, st1) => run_schedule cutoff schedule' (deliveredA ++ [x]) deliveredB st1
    | BranchB, (Some x, st1) => run_schedule cutoff schedule' deliveredA (deliveredB ++ [x]) st1
    | _, (None, st1) => run_schedule cutoff schedule' deliveredA deliveredB st1
    end
  end.

End SplitModel.
Arguments State : clear implicits.

(** ** Invariants of the Branch Buffers *)
Section SplitInvariants.
Context {A : Type}.

(** The elements of [S] up to position [pos], on either side of the
    cutoff. *)
Definition contentA (S : list A) (cutoff : Z) (pos : nat) : list A :=
  take (Nat.min (Z.to_nat cutoff) pos) S.
Definition contentB (S : list A) (cutoff : Z) (pos : nat) : list A :=
  drop (Z.to_nat cutoff) (take pos S).

(** What has been handed to the two branches, and what waits in their
    buffers, is what the upstream has produced so far, each element on
    its side of the cutoff. *)
Record split_inv (S : list A) (cutoff : Z) (dA dB : list A) (st : State A) : Prop :=
  mkSplitInv {
  inv_upstream : upstream st = drop (position st) S;
  inv_position : position st <= length S;
  inv_A : dA ++ bufferA st = contentA S cutoff (position st);
  inv_B : dB ++ bufferB st = contentB S cutoff (position st)
}.

Definition own_buffer (b : Branch) (st : State A) : list A :=
  match b with
  | BranchA => bufferA st
  | BranchB => bufferB st
  end.

(** Nothing is left for branch [b]. *)
Definition exhausted (S : list A) (cutoff : Z) (b : Branch) (st : State A) : Prop :=
  own_buffer b st = [] /\
  match b with
  | BranchA => contentA S cutoff (position st) = take (Z.to_nat cutoff) S
  | BranchB => position st = length S
  end.

(** What branch [b'] has been handed after a step of branch [b] that
    returned [r]. *)
Definition deliver (b b' : Branch) (d : list A) (r : option A) : list A :=
  match r, b, b' with
  | Some x, BranchA, BranchA | Some x, BranchB, BranchB => d ++ [x]
  | _, _, _ => d
  end.

(** What a traversal of branch [b] can still consume. *)
Definition measure (b : Branch) (st : State A) : nat :=
  length (own_buffer b st) + length (upstream st).

End SplitInvariants.
End Split.

(* ===================================================================== *)
(** ** The synchronized multi-source subsystem: zip and equal            *)
(* ===================================================================== *)

Module Zip.
Section ZipModel.
Context {A B : Type}.

(** Modelled from the spec: what one output step yields,
    [combinerFn(values)], or the raw tuple when no combiner is
    supplied. The combiner is called with one argument, the tuple; the
    class documents the parameter as [function(yields: Array): any]. *)
Inductive Output : Type :=
| Combined (b : B)
| Tuple (values : list A).

Definition emit (combinerFn : option (list A -> B)) (values : list A) : Output :=
  match combinerFn with
  | Some f => Combined (f values)
  | None => Tuple values
  end.

(** Modelled from the spec: one output step of [zip] (the file of [zip] is
    not among the sources). All inputs are advanced one step, in order;
    the step stops as soon as any input signals completion. An input is
    given by what it has yet to produce. *)
Fixpoint advance (inputs : list (list A)) : option (list A * list (list A)) :=
  match inputs with
  | [] => Some ([], [])
  | input :: rest =>
    match input with
    | [] => None
    | x :: input' =>
      match advance rest with
      | Some (values, rest') => Some (x :: values, input' :: rest')
      | None => None
      end
    end
  end.

(** Modelled from the spec: [zip(sequences, combinerFn)]. *)
Fixpoint zip (fuel : nat) (sequences : list (list A)) (combinerFn : option (list A -> B))
  : option (list Output) :=
  match fuel with
  | O => None
  | S fuel' =>
    match advance sequences with
    | Some (values, sequences') =>
        match zip fuel' sequences' combinerFn with
        | Some out => Some (emit combinerFn values :: out)
        | None => None
        end
    | None => Some []
    end
  end.




End ZipModel.
Arguments Output : clear implicits.

(** *** Combiners of the language

    A function of the language is given by what it returns for the list
    of its arguments. [None] is a result that the model does not give:
    NaN, an exception, a number that is not a safe integer, or what
    depends on an object that the model does not look into. *)










End Zip.

Module Equal.
Section EqualModel.
Context {A : Type} `{EqDecision A}.

(** Modelled from the spec: [equal(a, b)] (the file of [equal] is not
    among the sources). Both inputs are advanced in lockstep from index
    [i]; the verdict is false at the first index where the values differ
    or where one input is exhausted while the other is not, and true when
    both are exhausted together. The index at which the verdict falls is
    returned with it. *)
Fixpoint compare (i : nat) (a b : list A) : bool * nat :=
  match a, b with
  | [], [] => (true, i)
  | x :: a', y :: b' =>
      if bool_decide (x = y) then compare (S i) a' b' else (false, i)
  | _, _ => (false, i)
  end.

(** Modelled from the spec: the Sequence that [equal] returns yields the
    verdict, once. *)
Definition equal (a b : list A) : list bool := [fst (compare 0 a b)].

(** No pairwise value mismatch. *)
Definition no_mismatch (a b : list A) : Prop :=
  forall i x y, a !! i = Some x -> b !! i = Some y -> x = y.

End EqualModel.
End Equal.

(* ===================================================================== *)
(** ** The rest of the class                                             *)
(* ===================================================================== *)

Module JsMore.
Import Js.

(** What a Sequence with elements [xs] yields once [defaultIfEmpty] has
    been applied with [value]. *)
Definition or_default (xs : list Value) (value : Value) : list Value :=
  match xs with
  | [] => [value]
  | _ => xs
  end.

(** Values that have no [Symbol.iterator] anywhere on their prototype
    chain: spreading one, [...v], throws a TypeError. *)
Definition never_iterable (v : Value) : bool :=
  match v with
  | VUndefined | VNull | VBool _ | VNum _ | VSymbol _ | VFunction _ => true
  | _ => false
  end.

(** The instance [l] is what [defaultIfEmpty(s, v)] returned: an Iterable
    over the marked generator function that closes over [s] and [v]. *)
Definition is_default_of (σ : Store) (l : nat) (s v : Value) : Prop :=
  exists f,
    iterables σ !! l = Some (VGenFn f)
    /\ genfns σ !! f = Some (mkGenFnCell (BDefaultIfEmpty s v) true).

(** What a traversal of [defaultIfEmpty(s, v)] makes of the outcome of a
    traversal of [s]. *)
Definition defaulted (v : Value) (r : Res (list Value)) : Res (list Value) :=
  match r with
  | Ok xs σ => Ok (or_default xs v) σ
  | Throw e σ => Throw e σ
  | Abort f => Abort f
  end.

(** An index that [get] can reach: a number that the counter
    [0, 1, 2, ...] takes. *)
Definition reachable_index (index : Value) : Prop :=
  exists k : nat, index = VNum (Z.of_nat k).

(** Stores for the instances: a generator function whose body yields 1
    and 2, not yet wrapped; an Iterable over [[10, 20, 30]] beside a
    generator object that has 4 and 5 yet to yield. *)
Definition sample_function_store : Store :=
  set_genfn 0 (mkGenFnCell (BYields [VNum 1; VNum 2]) false) empty_store.
Definition sample_pair_store : Store :=
  set_gen 7 [VNum 4; VNum 5] sample_store.

End JsMore.

(** The outcome of a sub-computation is settled when the outcome of the
    whole, hypothesis [Hs], is. *)
Ltac settle Hs := first [lia | done | by intros E; rewrite E in Hs].

(* ===================================================================== *)
(** * Properties                                                         *)
(* ===================================================================== *)

(** ** The wrapper and defaultIfEmpty *)
Module JsFacts.
Import Js.

(** *** More fuel does not change an outcome *)


Lemma get_iterator_mono n : forall m v σ,
  n <= m -> settled (get_iterator n v σ) -> get_iterator m v σ = get_iterator n v σ.
Proof.
  induction n as [|n IH]; intros m v σ Hle Hs; [by destruct Hs|].
  destruct m as [|m]; [lia|]. simpl in *.
  destruct v; try done.
  destruct (iterables σ !! l); [|done]. apply IH; [lia|done].
Qed.

Lemma iter_next_mono n : forall m iter σ,
  n <= m -> settled (iter_next n iter σ) -> iter_next m iter σ = iter_next n iter σ.
Proof.
  induction n as [|n IH]; intros m iter σ Hle Hs; [by destruct Hs|].
  destruct m as [|m]; [lia|]. simpl in *.
  destruct iter; try done.
  - destruct (get_iterator n iterable σ) as [inner σ1|e σ1|[]] eqn:Hg.
    + rewrite (get_iterator_mono n m) by (lia || by rewrite Hg). rewrite Hg.
      rewrite (IH m) by settle Hs. done.
    + rewrite (get_iterator_mono n m) by (lia || by rewrite Hg). by rewrite Hg.
    + by destruct Hs.
    + rewrite (get_iterator_mono n m) by (lia || by rewrite Hg). by rewrite Hg.
  - rewrite (IH m) by settle Hs. done.
Qed.

Lemma drain_mono n : forall m iter σ,
  n <= m -> settled (drain n iter σ) -> drain m iter σ = drain n iter σ.
Proof.
  induction n as [|n IH]; intros m iter σ Hle Hs; [by destruct Hs|].
  destruct m as [|m]; [lia|]. simpl in *.
  rewrite (iter_next_mono n m) by settle Hs.
  destruct (iter_next n iter σ) as [[[x|] iter'] σ1|e σ1|f]; try done.
  rewrite (IH m) by settle Hs. done.
Qed.

Lemma get_loop_mono n : forall m iter s index σ,
  n <= m -> settled (get_loop n iter s index σ) ->
  get_loop m iter s index σ = get_loop n iter s index σ.
Proof.
  induction n as [|n IH]; intros m iter s index σ Hle Hs; [by destruct Hs|].
  destruct m as [|m]; [lia|]. simpl in *.
  rewrite (iter_next_mono n m) by settle Hs.
  destruct (iter_next n iter σ) as [[[x|] iter'] σ1|e σ1|f]; try done.
  destruct (num_strict_eq s index); [done|].
  apply IH; [lia|done].
Qed.

(** *** What a traversal leaves untouched *)


Lemma same_objects_refl σ : same_objects σ σ.
Proof. done. Qed.

Lemma same_objects_trans σ1 σ2 σ3 :
  same_objects σ1 σ2 -> same_objects σ2 σ3 -> same_objects σ1 σ3.
Proof. intros [H1 H2] [H3 H4]. split; congruence. Qed.


Lemma get_iterator_pure fuel : forall v σ σ',
  final_store (get_iterator fuel v σ) = Some σ' -> σ' = σ.
Proof.
  induction fuel as [|fuel IH]; intros v σ σ'; simpl; [done|].
  destruct v; simpl; try (by intros [= <-]).
  - destruct (genfns σ !! f) as [c|]; [|done].
    destruct (self_iter c); simpl; by intros [= <-].
  - destruct (gens σ !! g); simpl; [by intros [= <-]|done].
  - destruct (iterables σ !! l); [apply IH|done].
Qed.

Lemma get_iterator_Ok fuel v σ iter σ' :
  get_iterator fuel v σ = Ok iter σ' -> σ' = σ.
Proof. intros H. apply (get_iterator_pure fuel v). by rewrite H. Qed.

Lemma get_iterator_Throw fuel v σ e σ' :
  get_iterator fuel v σ = Throw e σ' -> σ' = σ.
Proof. intros H. apply (get_iterator_pure fuel v). by rewrite H. Qed.

Lemma set_gen_same_objects g rest σ : same_objects σ (set_gen g rest σ).
Proof. done. Qed.

Lemma iter_next_preserves fuel : forall iter σ, preserves (iter_next fuel iter σ) σ.
Proof.
  induction fuel as [|fuel IH]; intros iter σ σ'; simpl; [done|].
  destruct iter; simpl.
  - destruct (xs !! idx); simpl; by intros [= <-].
  - destruct (gens σ !! g) as [[|x rest]|]; simpl; [by intros [= <-]|by intros [= <-]|done].
  - destruct rest; simpl; by intros [= <-].
  - destruct (get_iterator fuel iterable σ) as [inner σ1|e σ1|f] eqn:Hg; simpl.
    + apply get_iterator_Ok in Hg as ->.
      pose proof (IH inner σ) as Hin.
      destruct (iter_next fuel inner σ) as [[[x|] iter'] σ2|e σ2|f]; simpl in *;
        try done; intros [= <-]; by apply Hin.
    + apply get_iterator_Throw in Hg as ->. by intros [= <-].
    + done.
  - pose proof (IH iter σ) as Hin.
    destruct (iter_next fuel iter σ) as [[[x|] iter'] σ2|e σ2|f]; simpl in *;
      try done; intros [= <-]; by apply Hin.
  - by intros [= <-].
  - by intros [= <-].
Qed.

Lemma iter_return_same_objects iter : forall σ, same_objects σ (iter_return iter σ).
Proof.
  induction iter; intros σ; simpl; try done.
  destruct (gens σ !! g); done.
Qed.

Lemma drain_preserves fuel : forall iter σ, preserves (drain fuel iter σ) σ.
Proof.
  induction fuel as [|fuel IH]; intros iter σ σ'; simpl; [done|].
  pose proof (iter_next_preserves fuel iter σ) as Hn.
  destruct (iter_next fuel iter σ) as [[[x|] iter'] σ1|e σ1|f]; simpl in *; try done.
  - pose proof (IH iter' σ1) as Hd.
    destruct (drain fuel iter' σ1) as [xs σ2|e σ2|f]; simpl in *; try done;
      intros [= <-]; (eapply same_objects_trans; [by apply Hn|by apply Hd]).
  - intros [= <-]. by apply Hn.
  - intros [= <-]. by apply Hn.
Qed.

Lemma get_loop_preserves fuel : forall iter s index σ,
  preserves (get_loop fuel iter s index σ) σ.
Proof.
  induction fuel as [|fuel IH]; intros iter s index σ σ'; simpl; [done|].
  pose proof (iter_next_preserves fuel iter σ) as Hn.
  destruct (iter_next fuel iter σ) as [[[x|] iter'] σ1|e σ1|f]; simpl in *; try done.
  - destruct (num_strict_eq s index); simpl.
    + intros [= <-]. eapply same_objects_trans; [by apply Hn|].
      apply iter_return_same_objects.
    + intros H. eapply same_objects_trans; [by apply Hn|]. by apply (IH iter' (s + 1)%Z index).
  - intros [= <-]. by apply Hn.
  - intros [= <-]. by apply Hn.
Qed.

Lemma traverse_preserves fuel v σ : preserves (traverse fuel v σ) σ.
Proof.
  unfold traverse, bind. intros σ'.
  destruct (get_iterator fuel v σ) as [iter σ1|e σ1|f] eqn:Hg; simpl; [| |done].
  - apply get_iterator_Ok in Hg as ->. apply drain_preserves.
  - apply get_iterator_Throw in Hg as ->. by intros [= <-].
Qed.

Lemma get_preserves fuel this index σ : preserves (get fuel this index σ) σ.
Proof.
  unfold get, bind, read_it. intros σ'.
  destruct (iterables σ !! this) as [it|]; [|done].
  destruct (get_iterator fuel it σ) as [iter σ1|e σ1|f] eqn:Hg; simpl; [| |done].
  - apply get_iterator_Ok in Hg as ->. apply get_loop_preserves.
  - apply get_iterator_Throw in Hg as ->. by intros [= <-].
Qed.

(** *** get *)

Lemma multi_pass_iterator σ v xs :
  multi_pass σ v xs ->
  exists n, forall fuel, n <= fuel ->
    get_iterator fuel v σ = Ok (IArray xs 0) σ
    \/ get_iterator fuel v σ = Ok (IBody xs) σ.
Proof.
  induction 1 as [xs|s|f xs Hf|l it xs Hl _ [n IH]].
  - exists 1. intros [|fuel] ?; [lia|by left].
  - exists 1. intros [|fuel] ?; [lia|by left].
  - exists 1. intros [|fuel] ?; [lia|]. right. simpl. by rewrite Hf.
  - exists (S n). intros [|fuel] ?; [lia|]. simpl. rewrite Hl. apply IH. lia.
Qed.

Lemma get_loop_array xs i σ fuel : forall idx,
  idx <= i -> length xs - idx + 1 < fuel ->
  get_loop fuel (IArray xs idx) (Z.of_nat idx) (VNum (Z.of_nat i)) σ
  = Ok (default VUndefined (xs !! i)) σ.
Proof.
  induction fuel as [|fuel IH]; intros idx Hle Hfuel; [lia|].
  simpl. destruct fuel as [|fuel]; [lia|]. simpl.
  destruct (xs !! idx) as [x|] eqn:Hx.
  - destruct (Z.eqb_spec (Z.of_nat idx) (Z.of_nat i)) as [E|NE].
    + apply Nat2Z.inj in E. subst i. by rewrite Hx.
    + apply lookup_lt_Some in Hx.
      replace (Z.of_nat idx + 1)%Z with (Z.of_nat (S idx)) by lia.
      apply IH; lia.
  - apply lookup_ge_None in Hx.
    by rewrite (proj2 (lookup_ge_None xs i)) by lia.
Qed.

Lemma get_loop_body σ fuel : forall rest (s : Z) (k : nat),
  length rest + 1 < fuel ->
  get_loop fuel (IBody rest) s (VNum (s + Z.of_nat k)) σ
  = Ok (default VUndefined (rest !! k)) σ.
Proof.
  induction fuel as [|fuel IH]; intros rest s k Hfuel; [lia|].
  simpl. destruct fuel as [|fuel]; [lia|]. simpl.
  destruct rest as [|x rest]; [done|].
  destruct (Z.eqb_spec s (s + Z.of_nat k)) as [E|NE].
  - by replace k with 0 by lia.
  - destruct k as [|k]; [lia|]. simpl.
    replace (s + Z.of_nat (S k))%Z with ((s + 1) + Z.of_nat k)%Z by lia.
    apply IH. simpl in Hfuel. lia.
Qed.

(** C5. For every Iterable wrapping a multi-pass source [s] with
    elements [xs] and every natural number [i], [get(i)] traverses the
    wrapped reference from its start and returns the element at the
    zero-based ordinal [i] when [i < |s|], and [undefined] when the
    traversal completes first; the store is left as it was, so every call
    is a fresh traversal. *)
Theorem get_returns_element_or_undefined σ l s xs (i : nat) :
  iterables σ !! l = Some s ->
  multi_pass σ s xs ->
  exists n, forall fuel, n <= fuel ->
    get fuel l (VNum (Z.of_nat i)) σ = Ok (default VUndefined (xs !! i)) σ.
Proof.
  intros Hl Hmp. destruct (multi_pass_iterator σ s xs Hmp) as [n Hn].
  exists (n + length xs + 2). intros fuel Hfuel.
  unfold get, bind, read_it. rewrite Hl.
  destruct (Hn fuel) as [-> | ->]; [lia| |].
  - apply (get_loop_array xs i σ fuel 0); lia.
  - apply (get_loop_body σ fuel xs 0%Z i). lia.
Qed.

(** *** The Proxy *)

Lemma numeral_not_in_target (n : Z) : in_target (ToPropertyKey (VNum n)) = false.
Proof.
  unfold ToPropertyKey, Z_to_string.
  destruct (Z.to_int n) as [d|d]; destruct d; reflexivity.
Qed.

Lemma get_loop_string_index xs k σ fuel : forall idx s,
  length xs - idx + 1 < fuel ->
  get_loop fuel (IArray xs idx) s (VStr k) σ = Ok VUndefined σ.
Proof.
  induction fuel as [|fuel IH]; intros idx s Hfuel; [lia|].
  simpl. destruct fuel as [|fuel]; [lia|]. simpl.
  destruct (xs !! idx) as [x|] eqn:Hx; [|done].
  apply lookup_lt_Some in Hx. apply IH. lia.
Qed.

Lemma proxy_get_member isNumber fuel target index :
  in_target index = true ->
  proxy_get isNumber fuel target index = get_member target index.
Proof. intros H. unfold proxy_get. by rewrite H. Qed.

Lemma proxy_get_absent isNumber fuel target index :
  in_target index = false -> isNumber (key_value index) = false ->
  proxy_get isNumber fuel target index = ret VUndefined.
Proof. intros H1 H2. unfold proxy_get. by rewrite H1, H2. Qed.

(** For a numeric index the trap receives the decimal numeral, a string:
    the instance has no member of that name, and [get], comparing its
    counter to a string with [===], runs the traversal to its end and
    answers [undefined], whatever [isNumber] says of the numeral. *)
Lemma index_access_numeral_undefined (isNumber : Value -> bool) σ l xs (i : nat) fuel :
  iterables σ !! l = Some (VArray xs) ->
  length xs + 2 <= fuel ->
  index_access isNumber fuel l (VNum (Z.of_nat i)) σ = Ok VUndefined σ
  /\ get fuel l (VNum (Z.of_nat i)) σ = Ok (default VUndefined (xs !! i)) σ.
Proof.
  intros Hl Hfuel. split.
  - unfold index_access, proxy_get. rewrite numeral_not_in_target.
    destruct (isNumber _); [|done].
    unfold get, bind, read_it. rewrite Hl.
    destruct fuel as [|fuel']; [lia|]. cbn [get_iterator].
    apply get_loop_string_index. lia.
  - unfold get, bind, read_it. rewrite Hl.
    destruct fuel as [|fuel']; [lia|]. cbn [get_iterator].
    apply (get_loop_array xs i σ (S fuel') 0); lia.
Qed.

(** C6. On [new Iterable([10, 20, 30])], the index-style access [seq[1]]
    answers [undefined] while [seq.get(1)] answers [20]: the two are not
    the same value. The key of [seq[1]] is the string ["1"]. *)
Theorem index_access_differs_from_get (isNumber : Value -> bool) :
  constructor isIterable_spec sample_array empty_store = Ok (VIterable 0) sample_store
  /\ ToPropertyKey (VNum 1) = PKString "1"
  /\ index_access isNumber 5 0 (VNum 1) sample_store = Ok VUndefined sample_store
  /\ get 5 0 (VNum 1) sample_store = Ok (VNum 20) sample_store.
Proof.
  split; [reflexivity|]. split; [reflexivity|].
  apply (index_access_numeral_undefined isNumber sample_store 0
           [VNum 10; VNum 20; VNum 30] 1 5); [reflexivity|simpl; lia].
Qed.

(** *** The constructor *)

(** C7. [new Iterable(undefined)] and [new Iterable(null)] do not fail
    with the bad-argument error: reading [it.constructor] throws a
    TypeError before any check runs, whatever [isIterable] is. *)
Theorem constructor_nullish_throws_TypeError (isIterable : Value -> Store -> bool) σ :
  constructor isIterable VUndefined σ
  = Throw (TypeError "Cannot read property 'constructor' of undefined") σ
  /\ constructor isIterable VNull σ
  = Throw (TypeError "Cannot read property 'constructor' of null") σ.
Proof. done. Qed.

Lemma constructor_generator_function isIterable f c σ :
  genfns σ !! f = Some c ->
  constructor isIterable (VGenFn f) σ
  = Ok (VIterable (fresh (dom (iterables σ))))
       (set_iterable (fresh (dom (iterables σ))) (VGenFn f)
          (set_genfn f (mkGenFnCell (body c) true) σ)).
Proof. intros H. unfold constructor, bind. simpl. by rewrite H. Qed.

Lemma constructor_name_pure x σ name σ' :
  constructor_name x σ = Ok name σ' -> σ' = σ.
Proof. destruct x; simpl; by intros [= _ <-]. Qed.

(** *** Traversing an array *)

Lemma traverse_array xs σ fuel :
  length xs + 1 < fuel -> traverse fuel (VArray xs) σ = Ok xs σ.
Proof.
  intros Hfuel. unfold traverse, bind.
  destruct fuel as [|fuel]; [lia|]. cbn [get_iterator].
  assert (H : forall n idx, length xs - idx + 1 < n ->
            drain n (IArray xs idx) σ = Ok (drop idx xs) σ).
  { induction n as [|n IH]; intros idx Hn; [lia|]. cbn [drain].
    destruct n as [|n]; [lia|]. cbn [iter_next].
    destruct (xs !! idx) as [x|] eqn:Hx.
    - apply lookup_lt_Some in Hx as Hlt. rewrite IH by lia.
      by rewrite (drop_S _ _ _ Hx).
    - apply lookup_ge_None in Hx. by rewrite drop_ge. }
  rewrite H by lia. done.
Qed.

(** *** Traversals leave the instance alone *)

(** C9. Beginning a traversal of an Iterable, taking a step of it,
    abandoning it, completing it, or calling [get(index)] leaves the [it]
    field of the instance, and every Iterable instance and generator
    function, as they were, whether the outcome is a value or an
    exception; only generator objects advance. *)
Theorem traversal_does_not_mutate_iterable fuel l σ :
  (forall index σ', final_store (get fuel l index σ) = Some σ' ->
     iterables σ' !! l = iterables σ !! l /\ same_objects σ σ')
  /\ (forall iter σ', iterator_method fuel l σ = Ok iter σ' -> σ' = σ)
  /\ (forall iter σ', final_store (iter_next fuel iter σ) = Some σ' ->
     iterables σ' !! l = iterables σ !! l /\ same_objects σ σ')
  /\ (forall iter,
     iterables (iter_return iter σ) !! l = iterables σ !! l
     /\ same_objects σ (iter_return iter σ))
  /\ (forall σ', final_store (traverse fuel (VIterable l) σ) = Some σ' ->
     iterables σ' !! l = iterables σ !! l /\ same_objects σ σ').
Proof.
  assert (Hso : forall σ', same_objects σ σ' ->
            iterables σ' !! l = iterables σ !! l /\ same_objects σ σ').
  { intros σ' [H1 H2]. split; [by rewrite H1|done]. }
  split; [|split; [|split; [|split]]].
  - intros index σ' H. apply Hso. by apply (get_preserves fuel l index).
  - intros iter σ' H. unfold iterator_method, bind, read_it in H.
    destruct (iterables σ !! l); [|done]. by apply get_iterator_Ok in H.
  - intros iter σ' H. apply Hso. by apply (iter_next_preserves fuel iter).
  - intros iter. apply Hso, iter_return_same_objects.
  - intros σ' H. apply Hso. by apply (traverse_preserves fuel (VIterable l)).
Qed.

(** *** defaultIfEmpty *)

Lemma drain_S fuel iter σ :
  drain (S fuel) iter σ
  = match iter_next fuel iter σ with
    | Ok (Some x, iter') σ1 =>
        match drain fuel iter' σ1 with
        | Ok xs σ2 => Ok (x :: xs) σ2
        | Throw e σ2 => Throw e σ2
        | Abort f => Abort f
        end
    | Ok (None, _) σ1 => Ok [] σ1
    | Throw e σ1 => Throw e σ1
    | Abort f => Abort f
    end.
Proof. reflexivity. Qed.

(** Resumed after [yield i], the generator sets [flag = false] and goes
    round the loop. *)
Lemma iter_next_die_yield fuel inner flag value σ :
  iter_next (S fuel) (IDieYield inner flag value) σ
  = match iter_next fuel inner σ with
    | Ok (Some i, inner') σ1 => Ok (Some i, IDieYield inner' false value) σ1
    | Ok (None, _) σ1 => Ok (None, IDone) σ1
    | Throw e σ1 => Throw e σ1
    | Abort f => Abort f
    end.
Proof. reflexivity. Qed.

(** Started, the generator enters the loop with [flag = true]. *)
Lemma iter_next_die_start fuel iterable value σ :
  iter_next (S fuel) (IDieStart iterable value) σ
  = match get_iterator fuel iterable σ with
    | Ok inner σ1 =>
        match iter_next fuel inner σ1 with
        | Ok (Some i, inner') σ2 => Ok (Some i, IDieYield inner' true value) σ2
        | Ok (None, _) σ2 => Ok (Some value, IDieTail) σ2
        | Throw e σ2 => Throw e σ2
        | Abort f => Abort f
        end
    | Throw e σ1 => Throw e σ1
    | Abort f => Abort f
    end.
Proof. reflexivity. Qed.

(** Once an element has gone through, the generator hands on what the
    inner iterator yields and nothing else. *)
Lemma drain_die_yield n : forall inner flag value σ xs σ',
  drain n inner σ = Ok xs σ' ->
  drain (S n) (IDieYield inner flag value) σ = Ok xs σ'.
Proof.
  induction n as [|n IH]; intros inner flag value σ xs σ'; [done|].
  rewrite (drain_S n), (drain_S (S n)), iter_next_die_yield.
  destruct (iter_next n inner σ) as [[[x|] inner'] σ1|e σ1|f]; try done.
  destruct (drain n inner' σ1) as [xs' σ2|e σ2|f] eqn:Hd; try done.
  intros [= <- <-]. by rewrite (IH _ false value _ _ _ Hd).
Qed.

(** From its start, the generator yields what the inner iterator yields,
    or [value] alone when that is nothing. *)
Lemma drain_die_start n iterable value inner σ xs σ' :
  get_iterator n iterable σ = Ok inner σ ->
  drain n inner σ = Ok xs σ' ->
  drain (S (S n)) (IDieStart iterable value) σ
  = Ok (match xs with [] => [value] | _ => xs end) σ'.
Proof.
  intros Hg Hd. rewrite (drain_S (S n)), iter_next_die_start, Hg.
  destruct n as [|n]; [done|]. rewrite drain_S in Hd.
  assert (Hs : settled (iter_next n inner σ)).
  { intros E. by rewrite E in Hd. }
  rewrite (iter_next_mono n (S n)) by (lia || done).
  destruct (iter_next n inner σ) as [[[x|] inner'] σ1|e σ1|f]; try done.
  - destruct (drain n inner' σ1) as [xs' σ2|e σ2|f] eqn:Hd'; try done.
    injection Hd as <- <-.
    rewrite (drain_mono (S n) (S (S n))); [|lia|];
      rewrite (drain_die_yield n _ true value _ _ _ Hd'); done.
  - injection Hd as <- <-. done.
Qed.

(** C10. [defaultIfEmpty(s, v)] checks its first argument at call time:
    if the check fails the call throws the bad-argument error for
    argument 1 and nothing else happens; otherwise it returns an Iterable
    without advancing any producer, and a traversal of that Iterable
    yields what a traversal of [s] yields, or the single element [v] when
    [s] yields nothing. *)
Theorem defaultIfEmpty_yields
  (isIterable : Value -> Store -> bool) (defineField : string -> string) s v σ :
  (isIterable s σ = false ->
     defaultIfEmpty isIterable defineField s v σ
     = Throw (BadArgumentError 1 (defineField "defaultIfEmpty") "Iterable") σ)
  /\ (isIterable s σ = true ->
     exists l σ1,
       defaultIfEmpty isIterable defineField s v σ = Ok (VIterable l) σ1
       /\ gens σ1 = gens σ
       /\ forall fuel xs σ2,
            traverse fuel s σ1 = Ok xs σ2 ->
            traverse (fuel + 3) (VIterable l) σ1
            = Ok (match xs with [] => [v] | _ => xs end) σ2).
Proof.
  split; intros Hcheck; unfold defaultIfEmpty, bind, IterableCheck, FIELD;
    rewrite Hcheck; [done|].
  unfold new_generator_function.
  set (f := fresh (dom (genfns σ))).
  set (σa := set_genfn f _ σ).
  rewrite (constructor_generator_function isIterable f
             (mkGenFnCell (BDefaultIfEmpty s v) false) σa)
    by apply lookup_insert_eq.
  eexists _, _. split; [done|]. split; [done|].
  intros fuel xs σ2. simpl body.
  set (l := fresh (dom (iterables σa))).
  set (σ1 := set_iterable l _ _).
  unfold traverse, bind.
  destruct (get_iterator fuel s σ1) as [inner σ1'|e σ1'|flt] eqn:Hg; [|done|done].
  apply get_iterator_Ok in Hg as Heq. subst σ1'. intros Hd.
  replace (fuel + 3) with (S (S (S fuel))) by lia.
  assert (Hit : get_iterator (S (S (S fuel))) (VIterable l) σ1 = Ok (IDieStart s v) σ1).
  { cbn [get_iterator]. subst σ1. simpl. rewrite lookup_insert_eq.
    simpl. by rewrite lookup_insert_eq. }
  rewrite Hit.
  rewrite (drain_mono (S (S fuel)) (S (S (S fuel)))); [|lia|];
    rewrite (drain_die_start fuel s v inner σ1 xs σ2 Hg Hd); done.
Qed.

(** *** Instances *)

Lemma get_returns_element_or_undefined_witness :
  exists n, forall fuel, n <= fuel ->
    get fuel 0 (VNum 1) sample_store = Ok (VNum 20) sample_store.
Proof.
  apply (get_returns_element_or_undefined sample_store 0 sample_array
           [VNum 10; VNum 20; VNum 30] 1).
  - reflexivity.
  - constructor.
Defined.

Example get_index_1 : get 5 0 (VNum 1) sample_store = Ok (VNum 20) sample_store.
Proof. reflexivity. Qed.

Example get_index_5 : get 5 0 (VNum 5) sample_store = Ok VUndefined sample_store.
Proof. reflexivity. Qed.

(** On a single-pass source the early [return] of [get] closes the
    generator: the instance is as before, the producer is finished. *)
Example get_on_generator :
  get 5 0 (VNum 0) sample_generator_store
  = Ok (VNum 1) (set_gen 0 [] sample_generator_store).
Proof. reflexivity. Qed.

Lemma traversal_does_not_mutate_iterable_witness :
  iterables (set_gen 0 [] sample_generator_store) !! 0
  = iterables sample_generator_store !! 0
  /\ same_objects sample_generator_store (set_gen 0 [] sample_generator_store).
Proof.
  apply (proj1 (traversal_does_not_mutate_iterable 5 0 sample_generator_store) (VNum 0)).
  reflexivity.
Defined.

Lemma defaultIfEmpty_yields_witness :
  exists l σ1,
    defaultIfEmpty isIterable_spec id (VArray []) (VNum 7) empty_store = Ok (VIterable l) σ1
    /\ gens σ1 = gens empty_store
    /\ forall fuel xs σ2,
         traverse fuel (VArray []) σ1 = Ok xs σ2 ->
         traverse (fuel + 3) (VIterable l) σ1
         = Ok (match xs with [] => [VNum 7] | _ => xs end) σ2.
Proof.
  apply (proj2 (defaultIfEmpty_yields isIterable_spec id (VArray []) (VNum 7) empty_store)).
  reflexivity.
Defined.

Example defaultIfEmpty_of_empty :
  match defaultIfEmpty isIterable_spec id (VArray []) (VNum 7) empty_store with
  | Ok seq σ => traverse 5 seq σ = Ok [VNum 7] σ
  | _ => False
  end.
Proof. reflexivity. Qed.

Example defaultIfEmpty_of_generator :
  match defaultIfEmpty isIterable_spec id (VGen 0) (VNum 7)
          (set_gen 0 [VNum 1; VNum 2] empty_store) with
  | Ok seq σ => traverse 6 seq σ = Ok [VNum 1; VNum 2] (set_gen 0 [] σ)
  | _ => False
  end.
Proof. reflexivity. Qed.

Example defaultIfEmpty_rejects_number :
  defaultIfEmpty isIterable_spec id (VNum 3) (VNum 7) empty_store
  = Throw (BadArgumentError 1 "defaultIfEmpty" "Iterable") empty_store.
Proof. reflexivity. Qed.

End JsFacts.

(** ** cache *)
Module CacheFacts.
Import Cache.
Section CacheFacts.
Context {A : Type}.
Implicit Types (xs : list A) (st : State A) (S : Source A).



Lemma cache_inv S : replay_inv (elements_of S) (cache S).
Proof. by split. Qed.

Lemma terminal_drained xs st :
  replay_inv xs st -> terminal st = true -> st = drained xs.
Proof.
  intros [H1 H2 H3 H4 H5] Ht. destruct st as [[p n s] b c t]; simpl in *.
  subst t. rewrite H4 in H1 by done. rewrite H4 by done.
  rewrite app_nil_r in H1. subst. done.
Qed.

Lemma cache_step_inv xs i st :
  replay_inv xs st -> replay_inv xs (step i st).2.
Proof.
  intros Hinv. unfold step.
  destruct (buffer st !! i); [done|].
  destruct (terminal st) eqn:Ht; [done|].
  destruct Hinv as [H1 H2 H3 H4 H5]. rewrite Ht in H5.
  unfold pull. destruct (pending (upstream st)) as [|x rest] eqn:Hp; simpl.
  - split; simpl; try done. by rewrite H5.
  - split; simpl; rewrite ?length_app; simpl; try lia; try done.
    by rewrite <- app_assoc.
Qed.

Lemma traverse_from_drains xs fuel : forall i st,
  replay_inv xs st -> i <= length (buffer st) -> length xs - i < fuel ->
  traverse_from fuel i st = Some (drop i xs, drained xs).
Proof.
  induction fuel as [|fuel IH]; intros i st Hinv Hi Hfuel; [lia|].
  simpl. unfold step.
  destruct (buffer st !! i) as [x|] eqn:Hb.
  - assert (Hx : xs !! i = Some x).
    { rewrite <- (inv_split _ _ Hinv). by apply lookup_app_l_Some. }
    apply lookup_lt_Some in Hb as Hlt. apply lookup_lt_Some in Hx as Hlt'.
    rewrite (IH (S i) st) by (done || lia).
    by rewrite (drop_S _ _ _ Hx).
  - apply lookup_ge_None in Hb. assert (i = length (buffer st)) by lia. subst i.
    destruct (terminal st) eqn:Ht.
    + rewrite (terminal_drained xs st Hinv Ht). simpl. by rewrite drop_all.
    + pose proof (cache_step_inv xs (length (buffer st)) st Hinv) as Hnext.
      unfold step in Hnext. rewrite (proj2 (lookup_ge_None _ _) Hb), Ht in Hnext.
      unfold pull in *. destruct (pending (upstream st)) as [|x rest] eqn:Hp; simpl in *.
      * rewrite (terminal_drained xs _ Hnext eq_refl).
        destruct Hinv as [H1 _ _ _ _]. rewrite Hp, app_nil_r in H1. subst xs.
        by rewrite drop_all.
      * assert (Hx : xs !! length (buffer st) = Some x).
        { rewrite <- (inv_split _ _ Hinv), Hp. by rewrite list_lookup_middle. }
        apply lookup_lt_Some in Hx as Hlt.
        rewrite IH; [|done|simpl; rewrite length_app; simpl; lia|lia].
        by rewrite (drop_S _ _ _ Hx).
Qed.

Lemma cache_traverse_drains xs fuel st :
  replay_inv xs st -> length xs < fuel ->
  traverse fuel st = Some (xs, drained xs).
Proof.
  intros Hinv Hfuel. unfold traverse.
  rewrite (traverse_from_drains xs) by (done || lia). done.
Qed.

Lemma drained_inv xs : replay_inv xs (drained xs).
Proof. split; simpl; try done. by rewrite app_nil_r. Qed.

Lemma traverse_times_drained xs fuel m :
  length xs < fuel ->
  traverse_times fuel m (drained xs) = Some (replicate m xs, drained xs).
Proof.
  intros Hfuel. induction m as [|m IH]; [done|]. simpl.
  rewrite (cache_traverse_drains xs) by (apply drained_inv || done).
  by rewrite IH.
Qed.

(** C1. For every finite source [S] of length [n], single- or
    multi-pass, [m >= 1] sequential traversals of [cache(S)] yield the
    elements of [S] every time, and the upstream producer is pulled
    exactly [n] times in total (not [n * m]); it signals completion
    once. *)
Theorem cache_replays_and_pulls_once (S : Source A) (m fuel : nat) :
  length (elements_of S) < fuel -> 1 <= m ->
  exists st,
    traverse_times fuel m (cache S) = Some (replicate m (elements_of S), st)
    /\ pulled (upstream st) = length (elements_of S)
    /\ signalled (upstream st) = 1.
Proof.
  intros Hfuel Hm. destruct m as [|m]; [lia|].
  exists (drained (elements_of S)). simpl.
  rewrite (cache_traverse_drains (elements_of S)) by (apply cache_inv || done).
  rewrite traverse_times_drained by done. done.
Qed.

(** Interleaved traversals. *)


Lemma step_buffer_grows i st :
  length (buffer st) <= length (buffer (step i st).2)
  /\ (terminal st = true -> terminal (step i st).2 = true).
Proof.
  unfold step. destruct (buffer st !! i); [done|].
  destruct (terminal st) eqn:Ht; simpl; [by rewrite Ht|].
  destruct (pull (upstream st)) as [[x|] u]; simpl; [|done].
  rewrite length_app. simpl. split; [lia|done].
Qed.

Lemma traversal_ok_mono xs st st' t :
  length (buffer st) <= length (buffer st') ->
  (terminal st = true -> terminal st' = true) ->
  traversal_ok xs st t -> traversal_ok xs st' t.
Proof. intros Hle Ht [H1 H2 H3]. split; [done|lia|]. intros Hf. apply Ht, H3, Hf. Qed.

Lemma advance_ok xs t st :
  replay_inv xs st -> traversal_ok xs st t ->
  traversal_ok xs (advance t st).2 (advance t st).1
  /\ (length (buffer (advance t st).2) = length (buffer st)
      \/ ordinal (advance t st).1 = length (buffer (advance t st).2)).
Proof.
  intros Hinv [H1 H2 H3]. unfold advance.
  destruct (finished t) eqn:Hf; simpl. { split; [split|left]; auto. }
  unfold step. destruct (buffer st !! ordinal t) as [x|] eqn:Hb; simpl.
  - apply lookup_lt_Some in Hb as Hlt. split; [|by left].
    split; simpl; [|lia|done].
    assert (Hx : xs !! ordinal t = Some x).
    { rewrite <- (inv_split _ _ Hinv). by apply lookup_app_l_Some. }
    by rewrite (take_S_r _ _ _ Hx), H1.
  - apply lookup_ge_None in Hb. assert (Heq : ordinal t = length (buffer st)) by lia.
    destruct (terminal st) eqn:Ht; simpl; [by split; [split|left]|].
    unfold pull. destruct (pending (upstream st)) as [|x rest] eqn:Hp; simpl.
    + split; [by split|by left].
    + assert (Hx : xs !! ordinal t = Some x).
      { rewrite <- (inv_split _ _ Hinv), Hp, Heq. by rewrite list_lookup_middle. }
      split; [split; simpl|right; simpl].
      * by rewrite (take_S_r _ _ _ Hx), H1.
      * rewrite length_app; simpl; lia.
      * done.
      * rewrite length_app; simpl; lia.
Qed.

Lemma advance_is_step t st :
  (advance t st).2 = st \/ (advance t st).2 = (step (ordinal t) st).2.
Proof.
  unfold advance. destruct (finished t); [by left|].
  destruct (step (ordinal t) st) as [[x|] st1]; by right.
Qed.

Lemma cache_run_schedule_inv xs schedule : forall ts st,
  schedule_inv xs ts st ->
  schedule_inv xs (run_schedule schedule ts st).1 (run_schedule schedule ts st).2.
Proof.
  induction schedule as [|j schedule IH]; intros ts st Hinv; [done|].
  simpl. destruct (ts !! j) as [t|] eqn:Hj; [|by apply IH].
  destruct (advance t st) as [t1 st1] eqn:Hadv. apply IH.
  destruct Hinv as [Hrep Heach Hdem].
  assert (Hok : traversal_ok xs st t).
  { eapply Forall_lookup_1; eauto. }
  destruct (advance_ok xs t st Hrep Hok) as [Hok1 Hgrow].
  rewrite Hadv in Hok1, Hgrow. simpl in *.
  assert (Hrep1 : replay_inv xs st1).
  { destruct (advance_is_step t st) as [E|E]; rewrite Hadv in E; simpl in E; subst st1;
      [done|by apply cache_step_inv]. }
  assert (Hmono : length (buffer st) <= length (buffer st1)
                  /\ (terminal st = true -> terminal st1 = true)).
  { destruct (advance_is_step t st) as [E|E]; rewrite Hadv in E; simpl in E; subst st1;
      [done|apply step_buffer_grows]. }
  destruct Hmono as [Hlen Hterm].
  split; [done| |].
  - apply Forall_insert; [|done].
    eapply Forall_impl; [exact Heach|]. intros t'. by apply traversal_ok_mono.
  - destruct Hgrow as [Hsame|Hnew].
    + destruct Hdem as [Hz|Hex]; [left; lia|].
      destruct (decide (ordinal t1 = length (buffer st1))) as [E|NE].
      * right. apply Exists_exists. exists t1. split; [|done].
        apply list_elem_of_lookup. exists j. apply list_lookup_insert_eq.
        by eapply lookup_lt_Some.
      * right. apply Exists_exists in Hex as (t' & Hin & Hord).
        apply list_elem_of_lookup in Hin as [j' Hj'].
        apply Exists_exists. exists t'. split; [|lia].
        apply list_elem_of_lookup. exists j'.
        rewrite list_lookup_insert_ne; [done|].
        intros ->. rewrite Hj in Hj'. injection Hj' as ->.
        (* t' = t: then t did not move *)
        apply NE. rewrite Hsame, <- Hord.
        revert Hadv. unfold advance. destruct (finished t'); [by intros [= <- <-]|].
        unfold step. rewrite (proj2 (lookup_ge_None _ _)) by lia.
        destruct (terminal st); [by intros [= <- <-]|].
        destruct (pull (upstream st)) as [[x|] u]; intros [= <- <-]; simpl in *;
          [rewrite length_app in Hsame; simpl in Hsame; lia|lia].
    + right. apply Exists_exists. exists t1. split; [|done].
      apply list_elem_of_lookup. exists j. apply list_lookup_insert_eq.
      by eapply lookup_lt_Some.
Qed.

(** Whatever the order in which [k] traversals take their steps, each
    has been handed a prefix of the elements, and the number of elements
    pulled from upstream is the furthest ordinal any of them reached. *)
Lemma interleaved_traversals (S : Source A) (k : nat) (schedule : list nat) :
  let '(ts, st) := run_schedule schedule (replicate k fresh_traversal) (cache S) in
  Forall (fun t => seen t = take (ordinal t) (elements_of S)) ts
  /\ Forall (fun t => ordinal t <= pulled (upstream st)) ts
  /\ (pulled (upstream st) = 0 \/ Exists (fun t => ordinal t = pulled (upstream st)) ts)
  /\ pulled (upstream st) <= length (elements_of S).
Proof.
  pose proof (cache_run_schedule_inv (elements_of S) schedule
                (replicate k fresh_traversal) (cache S)) as H.
  destruct (run_schedule _ _ _) as [ts st]. simpl in H.
  destruct H as [Hrep Heach Hdem].
  { split; [apply cache_inv| |by left].
    apply Forall_replicate. by split. }
  rewrite (inv_pulled _ _ Hrep). repeat split.
  - eapply Forall_impl; [exact Heach|]. by intros t [].
  - eapply Forall_impl; [exact Heach|]. by intros t [].
  - done.
  - rewrite <- (inv_split _ _ Hrep), length_app. lia.
Qed.

End CacheFacts.

Lemma cache_replays_and_pulls_once_witness :
  exists st,
    traverse_times 4 2 (cache (SinglePass [1; 2; 3]))
    = Some ([[1; 2; 3]; [1; 2; 3]], st)
    /\ pulled (upstream st) = 3
    /\ signalled (upstream st) = 1.
Proof.
  apply (cache_replays_and_pulls_once (SinglePass [1; 2; 3]) 2 4); simpl; lia.
Defined.

Example cache_multi_pass_three_traversals :
  traverse_times 3 3 (cache (MultiPass [7; 8]))
  = Some ([[7; 8]; [7; 8]; [7; 8]], drained [7; 8]).
Proof. reflexivity. Qed.

Example cache_no_traversal_no_pull :
  traverse_times 3 0 (cache (SinglePass [7; 8]))
  = Some ([], mkState (mkUpstream [7; 8] 0 0) [] 0 false).
Proof. reflexivity. Qed.

End CacheFacts.

(** ** split *)
Module SplitFacts.
Import Split.
Section SplitFacts.
Context {A : Type}.
Implicit Types (S xs : list A) (st : State A) (b : Branch) (cutoff : Z).

Lemma classify_lt cutoff pos :
  pos < Z.to_nat cutoff -> classify cutoff pos = BranchA.
Proof.
  intros H. unfold classify.
  destruct (Z.ltb_spec (Z.of_nat pos) cutoff); [done|lia].
Qed.

Lemma classify_ge cutoff pos :
  Z.to_nat cutoff <= pos -> classify cutoff pos = BranchB.
Proof.
  intros H. unfold classify.
  destruct (Z.ltb_spec (Z.of_nat pos) cutoff); [lia|done].
Qed.


Lemma upstream_cons S pos x rest :
  drop pos S = x :: rest ->
  S !! pos = Some x /\ rest = drop (Datatypes.S pos) S /\ pos < length S.
Proof.
  intros H. assert (Hx : S !! pos = Some x).
  { rewrite <- (Nat.add_0_r pos), <- lookup_drop, H. done. }
  split; [done|]. split; [|by eapply lookup_lt_Some].
  rewrite (drop_S _ _ _ Hx) in H. by injection H.
Qed.

Lemma content_below S cutoff pos x :
  S !! pos = Some x -> pos < Z.to_nat cutoff ->
  contentA S cutoff (Datatypes.S pos) = contentA S cutoff pos ++ [x]
  /\ contentB S cutoff (Datatypes.S pos) = contentB S cutoff pos.
Proof.
  intros Hx Hlt. unfold contentA, contentB.
  rewrite !Nat.min_r by lia. split; [by apply take_S_r|].
  rewrite !drop_ge; [done|rewrite length_take; lia|rewrite length_take; lia].
Qed.

Lemma content_above S cutoff pos x :
  S !! pos = Some x -> Z.to_nat cutoff <= pos ->
  contentA S cutoff (Datatypes.S pos) = contentA S cutoff pos
  /\ contentB S cutoff (Datatypes.S pos) = contentB S cutoff pos ++ [x].
Proof.
  intros Hx Hge. unfold contentA, contentB.
  rewrite !Nat.min_l by lia. split; [done|].
  rewrite (take_S_r _ _ _ Hx), drop_app_le; [done|].
  apply lookup_lt_Some in Hx. rewrite length_take. lia.
Qed.




Lemma split_inv_init S cutoff : split_inv S cutoff [] [] (split S).
Proof.
  split; simpl; [done|lia| |]; unfold contentA, contentB.
  - by rewrite Nat.min_0_r.
  - by rewrite take_0, drop_nil.
Qed.

Lemma contentA_end S cutoff pos :
  length S <= pos -> contentA S cutoff pos = take (Z.to_nat cutoff) S.
Proof.
  intros H. unfold contentA.
  destruct (decide (Z.to_nat cutoff <= pos)); [by rewrite Nat.min_l|].
  rewrite Nat.min_r by lia. rewrite !take_ge; [done|lia|lia].
Qed.

Lemma drive_A_inv S cutoff dA dB st :
  split_inv S cutoff dA dB st -> bufferA st = [] ->
  match drive cutoff BranchA (upstream st) (position st) (bufferB st) with
  | (Some x, up, pos, other) =>
      split_inv S cutoff (dA ++ [x]) dB (mkState up pos [] other)
  | (None, up, pos, other) =>
      split_inv S cutoff dA dB (mkState up pos [] other)
      /\ exhausted S cutoff BranchA (mkState up pos [] other)
  end.
Proof.
  intros [Hup Hpos HA HB] HbA. rewrite HbA in HA.
  destruct (upstream st) as [|x rest] eqn:Hu; simpl.
  - symmetry in Hup. apply drop_nil_inv in Hup as Hlen.
    split; [split; simpl; try done; by rewrite Hup|].
    split; simpl; [done|]. by apply contentA_end.
  - symmetry in Hup. apply upstream_cons in Hup as (Hx & Hrest & Hlt).
    destruct (decide (position st < Z.to_nat cutoff)) as [Hk|Hk].
    + rewrite classify_lt by done.
      destruct (content_below S cutoff _ x Hx Hk) as [EA EB].
      split; simpl; [done|lia| |].
      * rewrite app_nil_r in *. by rewrite EA, HA.
      * by rewrite EB.
    + rewrite classify_ge by lia.
      destruct (content_above S cutoff _ x Hx) as [EA EB]; [lia|].
      split; [split; simpl; [done|lia| |]|split; simpl; [done|]].
      * by rewrite EA.
      * by rewrite EB, app_assoc, HB.
      * unfold contentA. by rewrite Nat.min_l by lia.
Qed.

Lemma drive_B_inv S cutoff dA dB : forall up pos other,
  up = drop pos S -> pos <= length S ->
  dA ++ other = contentA S cutoff pos -> dB = contentB S cutoff pos ->
  match drive cutoff BranchB up pos other with
  | (Some x, up', pos', other') =>
      split_inv S cutoff dA (dB ++ [x]) (mkState up' pos' other' [])
  | (None, up', pos', other') =>
      split_inv S cutoff dA dB (mkState up' pos' other' [])
      /\ exhausted S cutoff BranchB (mkState up' pos' other' [])
  end.
Proof.
  induction up as [|x rest IH]; intros pos other Hup Hpos HA HB; simpl.
  - symmetry in Hup. apply drop_nil_inv in Hup as Hlen.
    split; [split; simpl; try done; by rewrite app_nil_r|].
    split; simpl; [done|lia].
  - symmetry in Hup. apply upstream_cons in Hup as (Hx & Hrest & Hlt).
    destruct (decide (pos < Z.to_nat cutoff)) as [Hk|Hk].
    + rewrite classify_lt by done.
      destruct (content_below S cutoff _ x Hx Hk) as [EA EB].
      apply IH; [done|lia| |].
      * by rewrite EA, app_assoc, HA.
      * by rewrite EB.
    + rewrite classify_ge by lia.
      destruct (content_above S cutoff _ x Hx) as [EA EB]; [lia|].
      split; simpl; [done|lia| |].
      * by rewrite EA.
      * by rewrite app_nil_r, EB, HB.
Qed.


Lemma split_next_inv S cutoff dA dB b st :
  split_inv S cutoff dA dB st ->
  split_inv S cutoff (deliver b BranchA dA (next cutoff b st).1)
                     (deliver b BranchB dB (next cutoff b st).1)
                     (next cutoff b st).2
  /\ ((next cutoff b st).1 = None -> exhausted S cutoff b (next cutoff b st).2).
Proof.
  intros Hinv. destruct b; unfold next.
  - destruct (bufferA st) as [|x rest] eqn:HbA.
    + pose proof (drive_A_inv S cutoff dA dB st Hinv HbA) as H.
      destruct (drive _ _ _ _ _) as [[[[x|] up] pos] other]; simpl; [by split|].
      destruct H as [H1 H2]. by split.
    + simpl. destruct Hinv as [Hup Hpos HA HB]. rewrite HbA in HA.
      split; [|done]. split; simpl; [done|done| |done].
      by rewrite <- app_assoc.
  - destruct (bufferB st) as [|x rest] eqn:HbB.
    + destruct Hinv as [Hup Hpos HA HB]. rewrite HbB, app_nil_r in HB.
      pose proof (drive_B_inv S cutoff dA dB _ _ _ Hup Hpos HA (eq_sym (eq_sym HB))) as H.
      destruct (drive _ _ _ _ _) as [[[[x|] up] pos] other]; simpl; [by split|].
      destruct H as [H1 H2]. by split.
    + simpl. destruct Hinv as [Hup Hpos HA HB]. rewrite HbB in HB.
      split; [|done]. split; simpl; [done|done|done|].
      by rewrite <- app_assoc.
Qed.


Lemma drive_shrinks cutoff b : forall (up : list A) pos other x up' pos' other',
  drive cutoff b up pos other = (Some x, up', pos', other') ->
  length up' < length up.
Proof.
  induction up as [|y rest IH]; intros pos other x up' pos' other'; simpl; [done|].
  destruct b, (classify cutoff pos); try (intros [= <- <- <- <-]; lia); try done.
  intros H. apply IH in H. lia.
Qed.

Lemma next_measure cutoff b st x st' :
  next cutoff b st = (Some x, st') -> measure b st' < measure b st.
Proof.
  unfold next, measure. destruct b; simpl.
  - destruct (bufferA st) as [|y rest].
    + destruct (drive _ _ _ _ _) as [[[r up] pos] other] eqn:Hd.
      intros [= -> <-]. apply drive_shrinks in Hd. simpl. lia.
    + intros [= <- <-]. simpl. lia.
  - destruct (bufferB st) as [|y rest].
    + destruct (drive _ _ _ _ _) as [[[r up] pos] other] eqn:Hd.
      intros [= -> <-]. apply drive_shrinks in Hd. simpl. lia.
    + intros [= <- <-]. simpl. lia.
Qed.

Lemma split_traverse_inv S cutoff b fuel : forall dA dB st,
  split_inv S cutoff dA dB st -> measure b st < fuel ->
  exists xs st',
    traverse fuel cutoff b st = Some (xs, st')
    /\ split_inv S cutoff (match b with BranchA => dA ++ xs | BranchB => dA end)
                          (match b with BranchA => dB | BranchB => dB ++ xs end) st'
    /\ exhausted S cutoff b st'.
Proof.
  induction fuel as [|fuel IH]; intros dA dB st Hinv Hfuel; [lia|].
  simpl. destruct (split_next_inv S cutoff dA dB b st Hinv) as [Hnext Hend].
  destruct (next cutoff b st) as [[x|] st1] eqn:Hn; simpl in *.
  - apply next_measure in Hn as Hm.
    destruct (IH _ _ st1 Hnext) as (xs & st2 & -> & Hinv2 & Hex); [lia|].
    exists (x :: xs), st2. split; [done|]. split; [|done].
    destruct b; simpl in *; by rewrite ?(assoc_L (++) _ [x] xs) in Hinv2 |- *; rewrite <- ?app_assoc in *.
  - exists [], st1. split; [done|]. split; [|auto].
    destruct b; by rewrite app_nil_r.
Qed.

Lemma measure_bound S cutoff dA dB b st :
  split_inv S cutoff dA dB st -> measure b st <= length S.
Proof.
  intros [Hup Hpos HA HB]. unfold measure. rewrite Hup, length_drop.
  assert (length (own_buffer b st) <= position st); [|lia].
  destruct b; simpl.
  - apply (f_equal length) in HA. unfold contentA in HA.
    rewrite length_app, length_take in HA. lia.
  - apply (f_equal length) in HB. unfold contentB in HB.
    rewrite length_app, length_drop, length_take in HB. lia.
Qed.

Lemma exhausted_A S cutoff dA dB st :
  split_inv S cutoff dA dB st -> exhausted S cutoff BranchA st ->
  dA = take (Z.to_nat cutoff) S.
Proof.
  intros [_ _ HA _] [Hb Hc]. simpl in Hb. by rewrite Hb, app_nil_r, Hc in HA.
Qed.

Lemma exhausted_B S cutoff dA dB st :
  split_inv S cutoff dA dB st -> exhausted S cutoff BranchB st ->
  dB = drop (Z.to_nat cutoff) S.
Proof.
  intros [_ _ _ HB] [Hb Hc]. simpl in Hb. unfold contentB in HB.
  by rewrite Hb, app_nil_r, Hc, firstn_all in HB.
Qed.

Lemma branches_A_first_spec S cutoff fuel :
  length S < fuel ->
  branches_A_first fuel cutoff S
  = Some (take (Z.to_nat cutoff) S, drop (Z.to_nat cutoff) S).
Proof.
  intros Hfuel. unfold branches_A_first.
  destruct (split_traverse_inv S cutoff BranchA fuel [] [] (split S))
    as (a & st1 & -> & Hinv1 & Hex1); [apply split_inv_init|unfold measure; simpl; lia|].
  simpl in Hinv1. pose proof (exhausted_A _ _ _ _ _ Hinv1 Hex1) as ->.
  destruct (split_traverse_inv S cutoff BranchB fuel _ _ st1 Hinv1)
    as (b & st2 & -> & Hinv2 & Hex2).
  { pose proof (measure_bound _ _ _ _ BranchB _ Hinv1). lia. }
  simpl in Hinv2. by pose proof (exhausted_B _ _ _ _ _ Hinv2 Hex2) as ->.
Qed.

Lemma branches_B_first_spec S cutoff fuel :
  length S < fuel ->
  branches_B_first fuel cutoff S
  = Some (take (Z.to_nat cutoff) S, drop (Z.to_nat cutoff) S).
Proof.
  intros Hfuel. unfold branches_B_first.
  destruct (split_traverse_inv S cutoff BranchB fuel [] [] (split S))
    as (b & st1 & -> & Hinv1 & Hex1); [apply split_inv_init|unfold measure; simpl; lia|].
  simpl in Hinv1. pose proof (exhausted_B _ _ _ _ _ Hinv1 Hex1) as ->.
  destruct (split_traverse_inv S cutoff BranchA fuel _ _ st1 Hinv1)
    as (a & st2 & -> & Hinv2 & Hex2).
  { pose proof (measure_bound _ _ _ _ BranchA _ Hinv1). lia. }
  simpl in Hinv2. by pose proof (exhausted_A _ _ _ _ _ Hinv2 Hex2) as ->.
Qed.

(** C2. For every upstream [S] and every cutoff [k], the two branches
    of [split(S, k)], traversed to the end in either order, yield [a] and
    [b] with [a ++ b = S], where [a] is the first [k] elements of [S] (all
    of [S] if it is shorter); a cutoff [k <= 0] gives an empty [a], a
    cutoff of at least [|S|] an empty [b], and an empty [S] two empty
    branches. *)
Theorem split_branches_concat S cutoff fuel :
  length S < fuel ->
  exists a b : list A,
    branches_A_first fuel cutoff S = Some (a, b)
    /\ branches_B_first fuel cutoff S = Some (a, b)
    /\ a ++ b = S
    /\ a = take (Z.to_nat cutoff) S
    /\ ((cutoff <= 0)%Z -> a = [])
    /\ ((Z.of_nat (length S) <= cutoff)%Z -> b = [])
    /\ (S = [] -> a = [] /\ b = []).
Proof.
  intros Hfuel. exists (take (Z.to_nat cutoff) S), (drop (Z.to_nat cutoff) S).
  split; [by apply branches_A_first_spec|].
  split; [by apply branches_B_first_spec|].
  split; [apply take_drop|]. split; [done|].
  split; [|split].
  - intros H. by replace (Z.to_nat cutoff) with 0 by lia.
  - intros H. apply drop_ge. lia.
  - intros ->. by rewrite take_nil, drop_nil.
Qed.

(** Whatever the rates at which the two branches are traversed, each is
    handed a prefix of its side of the upstream, and no element is lost. *)
Lemma split_run_schedule_inv S cutoff schedule : forall dA dB st,
  split_inv S cutoff dA dB st ->
  let '(dA', dB', st') := run_schedule cutoff schedule dA dB st in
  split_inv S cutoff dA' dB' st'.
Proof.
  induction schedule as [|b schedule IH]; intros dA dB st Hinv; [done|].
  destruct (split_next_inv S cutoff dA dB b st Hinv) as [Hnext _].
  destruct b; cbn -[next]; cbn -[next] in Hnext;
    destruct (next cutoff _ st) as [[x|] st1]; by apply IH.
Qed.

Lemma interleaved_branches S cutoff schedule :
  let '(dA, dB, st) := run_schedule cutoff schedule [] [] (split S) in
  dA `prefix_of` take (Z.to_nat cutoff) S
  /\ dB `prefix_of` drop (Z.to_nat cutoff) S
  /\ dA ++ bufferA st ++ dB ++ bufferB st ++ upstream st = S.
Proof.
  pose proof (split_run_schedule_inv S cutoff schedule [] [] (split S)
                (split_inv_init S cutoff)) as H.
  destruct (run_schedule _ _ _ _ _) as [[dA dB] st].
  destruct H as [Hup Hpos HA HB]. unfold contentA, contentB in *.
  split; [|split].
  - exists (bufferA st ++ drop (Nat.min (Z.to_nat cutoff) (position st)) (take (Z.to_nat cutoff) S)).
    rewrite app_assoc, HA.
    rewrite <- (take_drop (Nat.min (Z.to_nat cutoff) (position st)) (take (Z.to_nat cutoff) S)) at 1.
    rewrite take_take. f_equal. f_equal. lia.
  - exists (bufferB st ++ drop (Nat.max (Z.to_nat cutoff) (position st)) S).
    rewrite app_assoc, HB.
    destruct (decide (Z.to_nat cutoff <= position st)).
    + rewrite Nat.max_r by lia. by rewrite drop_take_drop.
    + rewrite Nat.max_l by lia.
      by rewrite (drop_ge (take _ _)) by (rewrite length_take; lia).
  - rewrite (app_assoc dA), HA, (app_assoc dB), HB, Hup.
    destruct (decide (Z.to_nat cutoff <= position st)).
    + rewrite Nat.min_l by lia. rewrite drop_take_drop by lia. apply take_drop.
    + rewrite Nat.min_r by lia.
      rewrite (drop_ge (take _ _)) by (rewrite length_take; lia). apply take_drop.
Qed.

End SplitFacts.

Lemma split_branches_concat_witness :
  exists a b : list nat,
    branches_A_first 5 2 [1; 2; 3; 4] = Some (a, b)
    /\ branches_B_first 5 2 [1; 2; 3; 4] = Some (a, b)
    /\ a ++ b = [1; 2; 3; 4]
    /\ a = take (Z.to_nat 2) [1; 2; 3; 4]
    /\ ((2 <= 0)%Z -> a = [])
    /\ ((Z.of_nat (length [1; 2; 3; 4]) <= 2)%Z -> b = [])
    /\ ([1; 2; 3; 4] = [] -> a = [] /\ b = []).
Proof.
  apply (split_branches_concat [1; 2; 3; 4] 2 5). simpl. lia.
Defined.

Example split_at_two :
  branches_B_first 5 2 [1; 2; 3; 4] = Some ([1; 2], [3; 4]).
Proof. reflexivity. Qed.

Example split_beyond_the_end :
  branches_A_first 4 8 [1; 2; 3] = Some ([1; 2; 3], []).
Proof. reflexivity. Qed.

Example split_negative_cutoff :
  branches_A_first 4 (-1) [1; 2; 3] = Some ([], [1; 2; 3]).
Proof. reflexivity. Qed.

End SplitFacts.

(** ** zip and equal *)
Module ZipFacts.
Import Zip.
Section ZipFacts.
Context {A B : Type}.
Implicit Types (sequences rest : list (list A)) (values : list A).








(** With no input at all no input ever signals completion: the
    traversal does not end, whatever the fuel. *)
Lemma zip_no_input_never_stops (combinerFn : option (list A -> B)) fuel :
  zip fuel [] combinerFn = None.
Proof. induction fuel as [|fuel IH]; [done|]. simpl. by rewrite IH. Qed.





End ZipFacts.




Example zip_raw_tuples :
  zip (B := Z) 3 [[1; 2; 3]; [10; 20]]%Z None = Some [Tuple [1; 10]%Z; Tuple [2; 20]%Z].
Proof. reflexivity. Qed.

End ZipFacts.

Module EqualFacts.
Import Equal.
Section EqualFacts.
Context {A : Type} `{EqDecision A}.
Implicit Types (a b : list A).


Lemma same_length_no_mismatch a b :
  length a = length b /\ no_mismatch a b <-> a = b.
Proof.
  split; [|intros ->; split; [done|]; intros i x y Hx Hy; congruence].
  revert b. induction a as [|x a IH]; intros [|y b] [Hlen Hno]; try done.
  f_equal.
  - by apply (Hno 0).
  - apply IH. split; [simpl in Hlen; lia|].
    intros i x' y' Hx Hy. by apply (Hno (S i)).
Qed.

Lemma compare_verdict a b : forall n, (compare n a b).1 = bool_decide (a = b).
Proof.
  revert b. induction a as [|x a IH]; intros [|y b] n; simpl; try done.
  destruct (decide (x = y)) as [->|Hne].
  - rewrite bool_decide_eq_true_2 by done. rewrite IH.
    apply bool_decide_ext. split; [by intros ->|by intros [= ->]].
  - rewrite bool_decide_eq_false_2 by done. simpl.
    symmetry. apply bool_decide_eq_false_2. by intros [= ? ?].
Qed.

(** The index at which a false verdict falls is the first one where the
    two inputs do not agree. *)
Lemma compare_false_index a b : forall n k,
  compare n a b = (false, k) ->
  exists i, k = n + i
    /\ (forall j, j < i -> exists x, a !! j = Some x /\ b !! j = Some x)
    /\ a !! i <> b !! i.
Proof.
  revert b. induction a as [|x a IH]; intros [|y b] n k; simpl.
  - done.
  - intros [= <-]. exists 0. split; [lia|]. split; [intros; lia|done].
  - intros [= <-]. exists 0. split; [lia|]. split; [intros; lia|done].
  - destruct (decide (x = y)) as [->|Hne].
    + rewrite bool_decide_eq_true_2 by done. intros H.
      destruct (IH _ _ _ H) as (i & -> & Hpre & Hi).
      exists (S i). split; [lia|]. split; [|done].
      intros [|j] Hj; [by exists y|]. apply Hpre. lia.
    + rewrite bool_decide_eq_false_2 by done. intros [= <-].
      exists 0. split; [lia|]. split; [intros; lia|]. simpl. congruence.
Qed.

(** C4. [equal(a, b)] yields true iff [a] and [b] are exhausted together
    with no pairwise value mismatch; it yields false iff there is an
    index where the values differ or where one input is exhausted and the
    other is not, and the verdict falls at the first such index. *)
Theorem equal_lockstep a b :
  (equal a b = [true] <-> length a = length b /\ no_mismatch a b)
  /\ (equal a b = [false] <->
      exists i, (forall j, j < i -> exists x, a !! j = Some x /\ b !! j = Some x)
                /\ a !! i <> b !! i)
  /\ (equal a b = [false] -> exists i, compare 0 a b = (false, i)
        /\ (forall j, j < i -> exists x, a !! j = Some x /\ b !! j = Some x)
        /\ a !! i <> b !! i).
Proof.
  unfold equal. rewrite (compare_verdict a b 0).
  split; [|split].
  - rewrite same_length_no_mismatch. split.
    + intros [= H]. by apply bool_decide_eq_true_1 in H.
    + intros ->. by rewrite bool_decide_eq_true_2.
  - split.
    + intros [= H]. rewrite <- (compare_verdict a b 0) in H.
      destruct (compare 0 a b) as [v k] eqn:E. simpl in H. subst v.
      destruct (compare_false_index _ _ _ _ E) as (i & _ & Hpre & Hi). eauto.
    + intros (i & _ & Hi). rewrite bool_decide_eq_false_2; [done|]. by intros ->.
  - intros [= H]. rewrite <- (compare_verdict a b 0) in H.
    destruct (compare 0 a b) as [v k] eqn:E. simpl in H. subst v.
    destruct (compare_false_index _ _ _ _ E) as (i & -> & Hpre & Hi).
    exists i. done.
Qed.

End EqualFacts.

Lemma equal_lockstep_witness :
  exists i, compare 0 [1; 2; 3]%Z [1; 2]%Z = (false, i)
    /\ (forall j, j < i -> exists x, [1; 2; 3]%Z !! j = Some x /\ [1; 2]%Z !! j = Some x)
    /\ [1; 2; 3]%Z !! i <> [1; 2]%Z !! i.
Proof.
  apply (proj2 (proj2 (equal_lockstep [1; 2; 3]%Z [1; 2]%Z))). reflexivity.
Defined.

Example equal_same : equal [1; 2; 3]%Z [1; 2; 3]%Z = [true].
Proof. reflexivity. Qed.
Example equal_shorter : equal [1; 2; 3]%Z [1; 2]%Z = [false].
Proof. reflexivity. Qed.
Example equal_empty : equal ([] : list Z) [] = [true].
Proof. reflexivity. Qed.
Example equal_shorter_index : compare 0 [1; 2; 3]%Z [1; 2]%Z = (false, 2).
Proof. reflexivity. Qed.

End EqualFacts.

(** ** get, the constructor, the Proxy, the method zip and defaultIfEmpty:
       further properties *)
Module JsMoreFacts.
Import Js JsFacts JsMore.

Lemma get_loop_S fuel iter s index σ :
  get_loop (S fuel) iter s index σ
  = match iter_next fuel iter σ with
    | Ok (Some i, iter') σ1 =>
        if num_strict_eq s index then Ok i (iter_return iter' σ1)
        else get_loop fuel iter' (s + 1) index σ1
    | Ok (None, _) σ1 => Ok VUndefined σ1
    | Throw e σ1 => Throw e σ1
    | Abort f => Abort f
    end.
Proof. reflexivity. Qed.

(** The loop of [get] sees what a traversal to the end would collect. *)
Lemma get_loop_drain fuel : forall iter (s : Z) (k : nat) σ xs σ',
  drain fuel iter σ = Ok xs σ' ->
  exists σ'',
    get_loop fuel iter s (VNum (s + Z.of_nat k)) σ = Ok (default VUndefined (xs !! k)) σ''
    /\ (length xs <= k -> σ'' = σ').
Proof.
  induction fuel as [|fuel IH]; intros iter s k σ xs σ'; [done|].
  rewrite drain_S, get_loop_S.
  destruct (iter_next fuel iter σ) as [[[x|] iter'] σ1|e σ1|f]; try done.
  - destruct (drain fuel iter' σ1) as [xs' σ2|e σ2|f] eqn:Hd; try done.
    intros [= <- <-]. simpl.
    destruct (Z.eqb_spec s (s + Z.of_nat k)) as [E|NE].
    + replace k with 0 by lia. eexists. split; [done|]. simpl. lia.
    + destruct k as [|k]; [lia|]. simpl.
      replace (s + Z.of_nat (S k))%Z with ((s + 1) + Z.of_nat k)%Z by lia.
      destruct (IH iter' (s + 1)%Z k σ1 xs' σ2 Hd) as (σ'' & Hg & Hs).
      exists σ''. split; [done|]. intros Hlen. apply Hs. lia.
  - intros [= <- <-]. exists σ1. by split.
Qed.

(** With an index that the counter never equals, the loop of [get] is a
    traversal to the end. *)
Lemma get_loop_no_match fuel index : forall iter (s : Z) σ xs σ',
  (forall n, (s <= n)%Z -> index <> VNum n) ->
  drain fuel iter σ = Ok xs σ' ->
  get_loop fuel iter s index σ = Ok VUndefined σ'.
Proof.
  induction fuel as [|fuel IH]; intros iter s σ xs σ' Hidx; [done|].
  rewrite drain_S, get_loop_S.
  destruct (iter_next fuel iter σ) as [[[x|] iter'] σ1|e σ1|f]; try done.
  - destruct (drain fuel iter' σ1) as [xs' σ2|e σ2|f] eqn:Hd; try done.
    intros [= <- <-].
    assert (Hne : num_strict_eq s index = false).
    { destruct index; try done. simpl. apply Z.eqb_neq. intros ->.
      by apply (Hidx n). }
    rewrite Hne. apply (IH iter' (s + 1)%Z σ1 xs' σ2); [|done].
    intros n Hn. apply Hidx. lia.
  - by intros [= <- <-].
Qed.

Lemma traverse_iterable fuel l σ xs σ' :
  traverse fuel (VIterable l) σ = Ok xs σ' ->
  exists it iter,
    iterables σ !! l = Some it
    /\ get_iterator fuel it σ = Ok iter σ
    /\ drain fuel iter σ = Ok xs σ'.
Proof.
  unfold traverse, bind. destruct fuel as [|fuel]; [done|].
  intros Hd. cbn [get_iterator] in Hd.
  destruct (iterables σ !! l) as [it|]; [|done].
  destruct (get_iterator fuel it σ) as [iter σ1|e σ1|f] eqn:Hg; try done.
  apply get_iterator_Ok in Hg as Heq. subst σ1.
  exists it, iter. split; [done|]. split; [|done].
  rewrite (get_iterator_mono fuel (S fuel)); [done|lia|by rewrite Hg].
Qed.

(** X1. [get(i)] returns the [i]-th element of what a complete traversal
    of the Iterable would yield at that moment, or [undefined] when there
    are not that many, for every source the traversal of which ends;
    when [i] is past the end, [get] has run the whole traversal. *)
Theorem get_agrees_with_traversal fuel l (i : nat) σ xs σ' :
  traverse fuel (VIterable l) σ = Ok xs σ' ->
  exists σ'',
    get fuel l (VNum (Z.of_nat i)) σ = Ok (default VUndefined (xs !! i)) σ''
    /\ same_objects σ σ''
    /\ (length xs <= i -> σ'' = σ').
Proof.
  intros Ht. destruct (traverse_iterable _ _ _ _ _ Ht) as (it & iter & Hl & Hg & Hd).
  destruct (get_loop_drain fuel iter 0%Z i σ xs σ' Hd) as (σ'' & Hget & Hend).
  assert (Hg' : get fuel l (VNum (Z.of_nat i)) σ = Ok (default VUndefined (xs !! i)) σ'').
  { unfold get, bind, read_it. rewrite Hl, Hg. exact Hget. }
  exists σ''. split; [done|]. split; [|done].
  apply (get_preserves fuel l (VNum (Z.of_nat i)) σ). by rewrite Hg'.
Qed.

(** X2. With an index that is not one of the numbers 0, 1, 2, ... (a
    negative number, a string, [undefined], ...) [get] runs the whole
    traversal and returns [undefined]: [===] never converts. *)
Theorem get_unreachable_index fuel l index σ xs σ' :
  ~ reachable_index index ->
  traverse fuel (VIterable l) σ = Ok xs σ' ->
  get fuel l index σ = Ok VUndefined σ'.
Proof.
  intros Hidx Ht.
  destruct (traverse_iterable _ _ _ _ _ Ht) as (it & iter & Hl & Hg & Hd).
  unfold get, bind, read_it. rewrite Hl, Hg.
  apply (get_loop_no_match fuel index iter 0%Z σ xs σ'); [|done].
  intros n Hn ->. apply Hidx. exists (Z.to_nat n). f_equal. lia.
Qed.

(** *** Single-pass sources *)

Lemma set_gen_set_gen g r r' σ : set_gen g r (set_gen g r' σ) = set_gen g r σ.
Proof. unfold set_gen. simpl. by rewrite insert_insert_eq. Qed.

Lemma set_gen_id g r σ : gens σ !! g = Some r -> set_gen g r σ = σ.
Proof. destruct σ. unfold set_gen. simpl. intros H. f_equal. by apply insert_id. Qed.

Lemma gens_set_gen g r σ : gens (set_gen g r σ) !! g = Some r.
Proof. apply lookup_insert_eq. Qed.

Lemma iter_next_gen fuel g σ :
  iter_next (S fuel) (IGen g) σ
  = match gens σ !! g with
    | Some (x :: rest) => Ok (Some x, IGen g) (set_gen g rest σ)
    | Some [] => Ok (None, IGen g) σ
    | None => Abort Dangling
    end.
Proof. reflexivity. Qed.

Lemma drain_gen g fuel : forall xs σ,
  gens σ !! g = Some xs -> length xs + 1 < fuel ->
  drain fuel (IGen g) σ = Ok xs (set_gen g [] σ).
Proof.
  induction fuel as [|fuel IH]; intros xs σ Hg Hfuel; [lia|].
  rewrite drain_S. destruct fuel as [|fuel]; [lia|].
  rewrite iter_next_gen, Hg. destruct xs as [|x rest].
  - by rewrite set_gen_id.
  - rewrite (IH rest (set_gen g rest σ)); [|apply gens_set_gen|simpl in Hfuel; lia].
    by rewrite set_gen_set_gen.
Qed.

Lemma get_loop_gen g fuel : forall xs σ (s : Z) (k : nat),
  gens σ !! g = Some xs -> length xs + 1 < fuel ->
  get_loop fuel (IGen g) s (VNum (s + Z.of_nat k)) σ
  = Ok (default VUndefined (xs !! k)) (set_gen g [] σ).
Proof.
  induction fuel as [|fuel IH]; intros xs σ s k Hg Hfuel; [lia|].
  rewrite get_loop_S. destruct fuel as [|fuel]; [lia|].
  rewrite iter_next_gen, Hg. destruct xs as [|x rest].
  - by rewrite set_gen_id.
  - simpl num_strict_eq. destruct (Z.eqb_spec s (s + Z.of_nat k)) as [E|NE].
    + replace k with 0 by lia. cbn [iter_return].
      by rewrite gens_set_gen, set_gen_set_gen.
    + destruct k as [|k]; [lia|].
      replace (s + Z.of_nat (S k))%Z with ((s + 1) + Z.of_nat k)%Z by lia.
      rewrite (IH rest (set_gen g rest σ)); [|apply gens_set_gen|simpl in Hfuel; lia].
      by rewrite set_gen_set_gen.
Qed.

Lemma get_loop_finished g fuel s index σ :
  gens σ !! g = Some [] ->
  get_loop (S (S fuel)) (IGen g) s index σ = Ok VUndefined σ.
Proof. intros Hg. by rewrite get_loop_S, iter_next_gen, Hg. Qed.

(** X3. On an Iterable over a generator object that has [xs] yet to
    yield, [get(i)] returns [xs[i]] (or [undefined]) and leaves the
    generator finished, whether it ran to the end or left the loop by
    [return]; every later [get] returns [undefined]. *)
Theorem get_on_single_pass_finishes_producer fuel l g xs (i : nat) index σ :
  iterables σ !! l = Some (VGen g) ->
  gens σ !! g = Some xs ->
  length xs + 2 <= fuel ->
  get fuel l (VNum (Z.of_nat i)) σ
  = Ok (default VUndefined (xs !! i)) (set_gen g [] σ)
  /\ get fuel l index (set_gen g [] σ) = Ok VUndefined (set_gen g [] σ).
Proof.
  intros Hl Hg Hfuel. unfold get, bind, read_it. simpl. rewrite Hl.
  destruct fuel as [|[|fuel]]; [lia|lia|].
  cbn [get_iterator]. rewrite Hg, gens_set_gen. split.
  - apply (get_loop_gen g (S (S fuel)) xs σ 0%Z i Hg). lia.
  - apply get_loop_finished, gens_set_gen.
Qed.

(** X4. An Iterable over a generator object is single-pass: the first
    traversal yields what the generator had yet to yield, the second
    yields nothing. *)
Theorem traversal_of_single_pass_is_one_shot fuel l g xs σ :
  iterables σ !! l = Some (VGen g) ->
  gens σ !! g = Some xs ->
  length xs + 3 <= fuel ->
  traverse fuel (VIterable l) σ = Ok xs (set_gen g [] σ)
  /\ traverse fuel (VIterable l) (set_gen g [] σ) = Ok [] (set_gen g [] σ).
Proof.
  intros Hl Hg Hfuel. unfold traverse, bind.
  destruct fuel as [|[|fuel]]; [lia|lia|].
  cbn [get_iterator]. simpl iterables. rewrite Hl, Hg, gens_set_gen. split.
  - apply drain_gen; [done|lia].
  - rewrite (drain_gen g _ [] (set_gen g [] σ)); [|apply gens_set_gen|simpl; lia].
    by rewrite set_gen_set_gen.
Qed.

(** *** Multi-pass sources *)

Lemma drain_array xs σ fuel : forall idx,
  length xs - idx + 1 < fuel ->
  drain fuel (IArray xs idx) σ = Ok (drop idx xs) σ.
Proof.
  induction fuel as [|fuel IH]; intros idx Hfuel; [lia|]. rewrite drain_S.
  destruct fuel as [|fuel]; [lia|]. cbn [iter_next].
  destruct (xs !! idx) as [x|] eqn:Hx.
  - apply lookup_lt_Some in Hx as Hlt. rewrite IH by lia.
    by rewrite (drop_S _ _ _ Hx).
  - apply lookup_ge_None in Hx. by rewrite drop_ge.
Qed.

Lemma drain_body σ fuel : forall rest,
  length rest + 1 < fuel -> drain fuel (IBody rest) σ = Ok rest σ.
Proof.
  induction fuel as [|fuel IH]; intros rest Hfuel; [lia|]. rewrite drain_S.
  destruct fuel as [|fuel]; [lia|]. cbn [iter_next].
  destruct rest as [|x rest]; [done|]. rewrite IH; [done|simpl in Hfuel; lia].
Qed.

Lemma traverse_multi_pass σ v xs :
  multi_pass σ v xs ->
  exists n, forall fuel, n <= fuel -> traverse fuel v σ = Ok xs σ.
Proof.
  intros Hmp. destruct (multi_pass_iterator σ v xs Hmp) as [n Hn].
  exists (n + length xs + 2). intros fuel Hfuel. unfold traverse, bind.
  destruct (Hn fuel) as [-> | ->]; [lia| |].
  - by rewrite drain_array by lia.
  - by rewrite drain_body by lia.
Qed.

(** *** The constructor *)

Lemma iterables_set_iterable l x σ : iterables (set_iterable l x σ) !! l = Some x.
Proof. apply lookup_insert_eq. Qed.

Lemma genfns_set_iterable l x σ : genfns (set_iterable l x σ) = genfns σ.
Proof. done. Qed.

Lemma gens_set_iterable l x σ : gens (set_iterable l x σ) = gens σ.
Proof. done. Qed.

Lemma genfns_set_genfn f c σ : genfns (set_genfn f c σ) !! f = Some c.
Proof. apply lookup_insert_eq. Qed.

Lemma get_iterator_genfn fuel f c σ :
  genfns σ !! f = Some c -> self_iter c = true ->
  get_iterator (S fuel) (VGenFn f) σ = Ok (start_generator (body c)) σ.
Proof. intros Hf Hs. simpl. by rewrite Hf, Hs. Qed.

Lemma get_iterator_iterable fuel l it σ :
  iterables σ !! l = Some it ->
  get_iterator (S fuel) (VIterable l) σ = get_iterator fuel it σ.
Proof. intros Hl. simpl. by rewrite Hl. Qed.

Lemma fresh_iterable σ : iterables σ !! fresh (dom (iterables σ)) = None.
Proof. apply not_elem_of_dom, is_fresh. Qed.

Lemma fresh_genfn σ : genfns σ !! fresh (dom (genfns σ)) = None.
Proof. apply not_elem_of_dom, is_fresh. Qed.

(** What a successful construction leaves: the new instance at a fresh
    place, over the store as it was or with the one generator function
    marked. *)
Lemma constructor_Ok isIterable x σ v σ' :
  constructor isIterable x σ = Ok v σ' ->
  exists σm,
    v = VIterable (fresh (dom (iterables σ)))
    /\ σ' = set_iterable (fresh (dom (iterables σ))) x σm
    /\ (σm = σ
        \/ exists f c, x = VGenFn f /\ genfns σ !! f = Some c
             /\ σm = set_genfn f (mkGenFnCell (body c) true) σ).
Proof.
  unfold constructor, bind.
  destruct (constructor_name x σ) as [name σ1|e σ1|flt] eqn:Hname; [|done|done].
  apply constructor_name_pure in Hname as ->.
  destruct (str_strict_eq name "GeneratorFunction").
  - unfold mark_self_starting. destruct x; unfold new_instance;
      try (intros [= <- <-]; exists σ; by auto).
    destruct (genfns σ !! f) as [c|] eqn:Hf; [|done].
    intros [= <- <-]. eexists. split; [done|]. split; [done|]. right. eauto.
  - destruct (isIterable x σ); [|done].
    unfold new_instance. intros [= <- <-]. exists σ. by auto.
Qed.

Lemma constructor_Throw isIterable x σ e σ' :
  constructor isIterable x σ = Throw e σ' -> σ' = σ.
Proof.
  unfold constructor, bind.
  destruct (constructor_name x σ) as [name σ1|e1 σ1|flt] eqn:Hname; [| |done].
  - apply constructor_name_pure in Hname as ->.
    destruct (str_strict_eq name "GeneratorFunction").
    + unfold mark_self_starting. destruct x; try done.
      by destruct (genfns σ !! f).
    + destruct (isIterable x σ); [done|]. by intros [= _ <-].
  - intros [= _ <-]. destruct x; simpl in Hname; try done; by injection Hname.
Qed.

(** X6. Construction does no traversal and disturbs nothing: when it
    succeeds no producer has advanced, every existing instance keeps its
    [it] field, and every generator function keeps its body (the argument
    gains the mark and nothing loses it); when it throws the store is as
    it was. *)
Theorem construction_disturbs_nothing (isIterable : Value -> Store -> bool) x σ :
  (forall v σ', constructor isIterable x σ = Ok v σ' ->
     gens σ' = gens σ
     /\ (forall l', is_Some (iterables σ !! l') ->
           iterables σ' !! l' = iterables σ !! l')
     /\ (forall f c, genfns σ !! f = Some c ->
           exists c', genfns σ' !! f = Some c' /\ body c' = body c
                      /\ (self_iter c = true -> self_iter c' = true)))
  /\ (forall e σ', constructor isIterable x σ = Throw e σ' -> σ' = σ).
Proof.
  split; [|intros e σ'; apply constructor_Throw].
  intros v σ' Hnew.
  destruct (constructor_Ok _ _ _ _ _ Hnew) as (σm & -> & -> & Hm).
  assert (Hl : forall l', is_Some (iterables σ !! l') ->
            l' <> fresh (dom (iterables σ))).
  { intros l' [y Hy] ->. by rewrite fresh_iterable in Hy. }
  destruct Hm as [->|(f & c & -> & Hf & ->)]; simpl.
  - split; [done|]. split.
    + intros l' Hl'. by rewrite lookup_insert_ne by (symmetry; auto).
    + intros f c Hf. eauto.
  - split; [done|]. split.
    + intros l' Hl'. by rewrite lookup_insert_ne by (symmetry; auto).
    + intros f' c' Hf'. destruct (decide (f' = f)) as [->|Hne].
      * rewrite lookup_insert_eq. rewrite Hf in Hf'. injection Hf' as <-.
        eexists. split; [done|]. by split.
      * rewrite lookup_insert_ne by done. eauto.
Qed.

(** X8. An Iterable made of a generator function runs the function anew
    at every traversal: each traversal yields all the values of the body,
    and leaves the store as it was. *)
Theorem iterable_of_generator_function_restarts
  (isIterable : Value -> Store -> bool) f c xs σ :
  genfns σ !! f = Some c ->
  body c = BYields xs ->
  exists l σ1,
    constructor isIterable (VGenFn f) σ = Ok (VIterable l) σ1
    /\ forall fuel, length xs + 4 <= fuel ->
         traverse fuel (VIterable l) σ1 = Ok xs σ1.
Proof.
  intros Hf Hbody. rewrite (constructor_generator_function isIterable f c σ Hf).
  eexists _, _. split; [done|]. intros fuel Hfuel.
  unfold traverse, bind. destruct fuel as [|[|fuel]]; [lia|lia|].
  rewrite (get_iterator_iterable _ _ _ _ (iterables_set_iterable _ _ _)).
  rewrite (get_iterator_genfn fuel f (mkGenFnCell (body c) true));
    [|by rewrite genfns_set_iterable, genfns_set_genfn|done].
  cbn [body]. rewrite Hbody. cbn [start_generator].
  apply drain_body. lia.
Qed.

(** *** The Proxy *)

Lemma key_value_unreachable key : ~ reachable_index (key_value key).
Proof. intros [k Hk]. by destruct key. Qed.

Lemma unreachable_no_match index (s : Z) :
  ~ reachable_index index -> forall n, (0 <= n)%Z -> index <> VNum n.
Proof.
  intros Hidx n Hn ->. apply Hidx. exists (Z.to_nat n). f_equal. lia.
Qed.

(** X9. Reading through the Proxy a property that the instance does
    not have, numeric or not, gives [undefined] and changes nothing, when
    the source is multi-pass, whatever [isNumber] answers. *)
Theorem absent_key_reads_undefined (isNumber : Value -> bool) σ l s xs key :
  iterables σ !! l = Some s ->
  multi_pass σ s xs ->
  in_target key = false ->
  exists n, forall fuel, n <= fuel ->
    proxy_get isNumber fuel l key σ = Ok VUndefined σ.
Proof.
  intros Hl Hmp Hkey.
  destruct (traverse_multi_pass σ (VIterable l) xs) as [n Hn];
    [by eapply mp_iterable|].
  exists n. intros fuel Hfuel. unfold proxy_get. rewrite Hkey.
  destruct (isNumber (key_value key)); [|done].
  destruct (traverse_iterable _ _ _ _ _ (Hn fuel Hfuel)) as (it & iter & Hl' & Hg & Hd).
  unfold get, bind, read_it. rewrite Hl', Hg.
  apply (get_loop_no_match fuel _ iter 0%Z σ xs σ); [|done].
  apply unreachable_no_match, key_value_unreachable. exact 0%Z.
Qed.

(** X10. On an Iterable over a generator object, reading an absent
    property gives [undefined]; if [isNumber] accepts the key the read
    has run [get] with a key that no counter equals, and the generator is
    finished. *)
Theorem absent_key_may_drain_single_pass (isNumber : Value -> bool) σ l g xs key fuel :
  iterables σ !! l = Some (VGen g) ->
  gens σ !! g = Some xs ->
  in_target key = false ->
  length xs + 2 <= fuel ->
  proxy_get isNumber fuel l key σ
  = Ok VUndefined (if isNumber (key_value key) then set_gen g [] σ else σ).
Proof.
  intros Hl Hg Hkey Hfuel. unfold proxy_get. rewrite Hkey.
  destruct (isNumber (key_value key)); [|done].
  unfold get, bind, read_it. rewrite Hl.
  destruct fuel as [|fuel]; [lia|]. cbn [get_iterator]. rewrite Hg.
  apply (get_loop_no_match _ _ (IGen g) 0%Z σ xs).
  - apply unreachable_no_match, key_value_unreachable. exact 0%Z.
  - apply drain_gen; [done|lia].
Qed.

(** *** The method zip *)

(** X11. The method [zip], called with a first argument that cannot be
    spread ([undefined], [null], a boolean, a number, ...), throws a
    TypeError while building [[this.it, ...its]]; the operator function is
    not reached. *)
Theorem zip_method_throws_TypeError
  (isIterable : Value -> Store -> bool) (defineField : string -> string)
  (internal : Op -> list Value -> M Value) fuel l s args σ :
  iterables σ !! l = Some s ->
  never_iterable (arg 0 args) = true ->
  method_call isIterable defineField internal (S fuel) Op_zip l args σ
  = Throw (TypeError "object is not iterable") σ.
Proof.
  intros Hl Hits. unfold method_call, bind, read_it, traverse, bind. rewrite Hl.
  by destruct (arg 0 args).
Qed.

(** X12. The method [zip] spreads its first argument at call time: a
    generator object passed as [its] is run to its end before the
    operator function is called, which receives the array of [this.it]
    and the values the generator yielded. *)
Theorem zip_method_drains_its_argument
  (isIterable : Value -> Store -> bool) (defineField : string -> string)
  (internal : Op -> list Value -> M Value) fuel l s g xs fn σ :
  iterables σ !! l = Some s ->
  gens σ !! g = Some xs ->
  length xs + 2 <= fuel ->
  method_call isIterable defineField internal fuel Op_zip l [VGen g; fn] σ
  = internal Op_zip [VArray (s :: xs); fn] (set_gen g [] σ).
Proof.
  intros Hl Hg Hfuel. unfold method_call, bind, read_it, traverse, bind.
  change (arg 0 [VGen g; fn]) with (VGen g).
  change (arg 1 [VGen g; fn]) with fn.
  rewrite Hl.
  destruct fuel as [|fuel]; [lia|]. cbn [get_iterator]. rewrite Hg.
  by rewrite (drain_gen g (S fuel) xs σ Hg) by lia.
Qed.

(** *** defaultIfEmpty *)

Lemma drain_die_yield_settled n : forall inner flag value σ,
  settled (drain n inner σ) ->
  drain (S n) (IDieYield inner flag value) σ = drain n inner σ.
Proof.
  induction n as [|n IH]; intros inner flag value σ Hs; [by destruct Hs|].
  rewrite (drain_S (S n)), iter_next_die_yield. rewrite drain_S in Hs |- *.
  destruct (iter_next n inner σ) as [[[x|] inner'] σ1|e σ1|f]; try done.
  rewrite IH; [done|]. intros E. by rewrite E in Hs.
Qed.

Lemma drain_die_start_settled n s v σ :
  settled (traverse n s σ) ->
  drain (S (S n)) (IDieStart s v) σ = defaulted v (traverse n s σ).
Proof.
  unfold traverse, bind. intros Hs.
  rewrite (drain_S (S n)), iter_next_die_start.
  destruct (get_iterator n s σ) as [inner σ1|e σ1|f] eqn:Hg; try done.
  apply get_iterator_Ok in Hg as Heq. subst σ1.
  destruct n as [|n]; [by destruct Hs|]. rewrite drain_S in Hs |- *.
  rewrite (iter_next_mono n (S n)); [|lia|by intros E; rewrite E in Hs].
  destruct (iter_next n inner σ) as [[[x|] inner'] σ1|e σ1|f]; try done.
  assert (Hs' : settled (drain n inner' σ1)).
  { intros E. by rewrite E in Hs. }
  rewrite (drain_mono (S n) (S (S n))); [|lia|];
    rewrite (drain_die_yield_settled n) by done; [|done].
  by destruct (drain n inner' σ1).
Qed.

Lemma defaulted_settled v r : settled r -> settled (defaulted v r).
Proof. by destruct r as [| |[]]. Qed.

(** In every store where the instance is the result of
    [defaultIfEmpty(s, v)], its traversal is the traversal of [s],
    defaulted. *)
Lemma traverse_default_of σ l s v fuel :
  is_default_of σ l s v ->
  settled (traverse fuel s σ) ->
  traverse (fuel + 3) (VIterable l) σ = defaulted v (traverse fuel s σ).
Proof.
  intros (f & Hl & Hf) Hs.
  replace (fuel + 3) with (S (S (S fuel))) by lia.
  unfold traverse at 1. unfold bind.
  rewrite (get_iterator_iterable _ _ _ _ Hl).
  rewrite (get_iterator_genfn _ _ _ _ Hf eq_refl). cbn [body start_generator].
  rewrite (drain_mono (S (S fuel)) (S (S (S fuel)))); [|lia|];
    rewrite drain_die_start_settled by done; [done|by apply defaulted_settled].
Qed.

Lemma is_default_of_same_objects σ σ' l s v :
  same_objects σ σ' -> is_default_of σ l s v -> is_default_of σ' l s v.
Proof. intros [H1 H2] (f & Hl & Hf). exists f. by rewrite H1, H2. Qed.

(** The call, when the check passes. *)
Lemma defaultIfEmpty_Ok isIterable defineField s v σ :
  isIterable s σ = true ->
  defaultIfEmpty isIterable defineField s v σ
  = Ok (VIterable (fresh (dom (iterables σ))))
       (set_iterable (fresh (dom (iterables σ))) (VGenFn (fresh (dom (genfns σ))))
          (set_genfn (fresh (dom (genfns σ)))
             (mkGenFnCell (BDefaultIfEmpty s v) true) σ)).
Proof.
  intros Hcheck. unfold defaultIfEmpty, bind, IterableCheck. rewrite Hcheck.
  unfold new_generator_function.
  rewrite (constructor_generator_function isIterable _
             (mkGenFnCell (BDefaultIfEmpty s v) false)) by apply genfns_set_genfn.
  unfold set_genfn, set_iterable. simpl. by rewrite insert_insert_eq.
Qed.

Lemma defaultIfEmpty_is_default_of isIterable defineField s v σ :
  isIterable s σ = true ->
  exists l σ1,
    defaultIfEmpty isIterable defineField s v σ = Ok (VIterable l) σ1
    /\ is_default_of σ1 l s v
    /\ gens σ1 = gens σ
    /\ iterables σ ⊆ iterables σ1
    /\ genfns σ ⊆ genfns σ1.
Proof.
  intros Hcheck. rewrite (defaultIfEmpty_Ok _ _ _ _ _ Hcheck).
  eexists _, _. split; [done|]. split; [|split; [done|split]].
  - eexists. split; [apply iterables_set_iterable|].
    rewrite genfns_set_iterable. apply genfns_set_genfn.
  - simpl. apply insert_subseteq, fresh_iterable.
  - simpl. apply insert_subseteq, fresh_genfn.
Qed.

(** X13. At any later moment, whatever producers have advanced since
    the call, a traversal of [defaultIfEmpty(s, v)] yields what a
    traversal of [s] yields then ([v] alone if nothing), with the same
    final store; an exception of that traversal comes out unchanged. *)
Theorem defaultIfEmpty_follows_its_source
  (isIterable : Value -> Store -> bool) (defineField : string -> string) s v σ :
  isIterable s σ = true ->
  exists l σ1,
    defaultIfEmpty isIterable defineField s v σ = Ok (VIterable l) σ1
    /\ forall σ2 fuel,
         same_objects σ1 σ2 ->
         settled (traverse fuel s σ2) ->
         traverse (fuel + 3) (VIterable l) σ2 = defaulted v (traverse fuel s σ2).
Proof.
  intros Hcheck.
  destruct (defaultIfEmpty_is_default_of isIterable defineField s v σ Hcheck)
    as (l & σ1 & Hcall & Hdef & _).
  exists l, σ1. split; [done|]. intros σ2 fuel Hsame Hs.
  apply traverse_default_of; [|done]. by eapply is_default_of_same_objects.
Qed.

(** X14. Over a generator object, the first traversal of
    [defaultIfEmpty(s, v)] yields what the generator had yet to yield and
    finishes it; the second traversal yields [v] alone. *)
Theorem defaultIfEmpty_of_single_pass_defaults_the_second_time
  (isIterable : Value -> Store -> bool) (defineField : string -> string) g xs v σ :
  isIterable (VGen g) σ = true ->
  gens σ !! g = Some xs ->
  exists l σ1,
    defaultIfEmpty isIterable defineField (VGen g) v σ = Ok (VIterable l) σ1
    /\ forall fuel, length xs + 6 <= fuel ->
         traverse fuel (VIterable l) σ1 = Ok (or_default xs v) (set_gen g [] σ1)
         /\ traverse fuel (VIterable l) (set_gen g [] σ1) = Ok [v] (set_gen g [] σ1).
Proof.
  intros Hcheck Hg.
  destruct (defaultIfEmpty_is_default_of isIterable defineField (VGen g) v σ Hcheck)
    as (l & σ1 & Hcall & Hdef & Hgens & _).
  exists l, σ1. split; [done|]. intros fuel Hfuel.
  assert (Hg1 : gens σ1 !! g = Some xs) by by rewrite Hgens.
  assert (Hsrc : forall ys σ', gens σ' !! g = Some ys -> length ys <= length xs ->
            traverse (fuel - 3) (VGen g) σ' = Ok ys (set_gen g [] σ')).
  { intros ys σ' Hys Hlen. unfold traverse, bind.
    destruct (fuel - 3) as [|n] eqn:E; [lia|]. cbn [get_iterator]. rewrite Hys.
    apply drain_gen; [done|lia]. }
  replace fuel with ((fuel - 3) + 3) by lia. split.
  - rewrite (traverse_default_of σ1 l (VGen g) v (fuel - 3) Hdef);
      rewrite (Hsrc xs σ1 Hg1) by lia; done.
  - assert (Hdef' : is_default_of (set_gen g [] σ1) l (VGen g) v).
    { by apply (is_default_of_same_objects σ1). }
    rewrite (traverse_default_of _ l (VGen g) v (fuel - 3) Hdef');
      rewrite (Hsrc [] (set_gen g [] σ1)) by (apply gens_set_gen || simpl; lia);
      [|done]. simpl. by rewrite set_gen_set_gen.
Qed.

Lemma multi_pass_extend σ σ' v xs :
  genfns σ ⊆ genfns σ' -> iterables σ ⊆ iterables σ' ->
  multi_pass σ v xs -> multi_pass σ' v xs.
Proof.
  intros Hf Hi. induction 1 as [xs|s|f xs Hfx|l it xs Hl _ IH].
  - constructor.
  - constructor.
  - constructor. by eapply lookup_weaken.
  - econstructor; [|exact IH]. by eapply lookup_weaken.
Qed.

(** X15. Over a multi-pass source with elements [xs],
    [defaultIfEmpty(s, v)] is multi-pass: every traversal yields [xs], or
    [v] alone when [xs] is empty, and leaves the store as it was. *)
Theorem defaultIfEmpty_of_multi_pass_is_multi_pass
  (isIterable : Value -> Store -> bool) (defineField : string -> string) s xs v σ :
  isIterable s σ = true ->
  multi_pass σ s xs ->
  exists l σ1 n,
    defaultIfEmpty isIterable defineField s v σ = Ok (VIterable l) σ1
    /\ forall fuel, n <= fuel ->
         traverse fuel (VIterable l) σ1 = Ok (or_default xs v) σ1.
Proof.
  intros Hcheck Hmp.
  destruct (defaultIfEmpty_is_default_of isIterable defineField s v σ Hcheck)
    as (l & σ1 & Hcall & Hdef & _ & Hi & Hf).
  destruct (traverse_multi_pass σ1 s xs) as [n Hn];
    [by eapply multi_pass_extend|].
  exists l, σ1, (n + 3). split; [done|]. intros fuel Hfuel.
  replace fuel with ((fuel - 3) + 3) by lia.
  rewrite (traverse_default_of σ1 l s v (fuel - 3) Hdef); rewrite Hn by lia; done.
Qed.

Lemma is_default_of_extend σ σ' l s v :
  genfns σ ⊆ genfns σ' -> iterables σ ⊆ iterables σ' ->
  is_default_of σ l s v -> is_default_of σ' l s v.
Proof.
  intros Hf Hi (f & Hl & Hfx). exists f. split; by eapply lookup_weaken.
Qed.

Lemma defaulted_defaulted v w r : defaulted w (defaulted v r) = defaulted v r.
Proof. destruct r as [[|x xs] σ|e σ|f]; done. Qed.

(** X16. [defaultIfEmpty] applied to its own result adds nothing: a
    traversal of [defaultIfEmpty(defaultIfEmpty(s, v), w)] has the outcome
    of a traversal of [defaultIfEmpty(s, v)]; [w] is never yielded. *)
Theorem defaultIfEmpty_twice_is_once
  (isIterable : Value -> Store -> bool) (defineField : string -> string) s v w σ :
  isIterable s σ = true ->
  exists l σ1,
    defaultIfEmpty isIterable defineField s v σ = Ok (VIterable l) σ1
    /\ (isIterable (VIterable l) σ1 = true ->
        exists l2 σ2,
          defaultIfEmpty isIterable defineField (VIterable l) w σ1 = Ok (VIterable l2) σ2
          /\ forall fuel,
               settled (traverse fuel s σ2) ->
               traverse (fuel + 6) (VIterable l2) σ2 = defaulted v (traverse fuel s σ2)
               /\ traverse (fuel + 6) (VIterable l2) σ2
                  = traverse (fuel + 3) (VIterable l) σ2).
Proof.
  intros Hcheck.
  destruct (defaultIfEmpty_is_default_of isIterable defineField s v σ Hcheck)
    as (l & σ1 & Hcall & Hdef & _).
  exists l, σ1. split; [done|]. intros Hcheck2.
  destruct (defaultIfEmpty_is_default_of isIterable defineField (VIterable l) w σ1 Hcheck2)
    as (l2 & σ2 & Hcall2 & Hdef2 & _ & Hi & Hf).
  exists l2, σ2. split; [done|]. intros fuel Hs.
  pose proof (is_default_of_extend σ1 σ2 l s v Hf Hi Hdef) as Hdef1.
  pose proof (traverse_default_of σ2 l s v fuel Hdef1 Hs) as Hinner.
  replace (fuel + 6) with ((fuel + 3) + 3) by lia.
  rewrite (traverse_default_of σ2 l2 (VIterable l) w (fuel + 3) Hdef2);
    rewrite Hinner; [|by apply defaulted_settled].
  by rewrite defaulted_defaulted.
Qed.

Lemma get_loop_die_yield_settled n : forall inner flag value s index σ,
  settled (get_loop n inner s index σ) ->
  get_loop (S n) (IDieYield inner flag value) s index σ = get_loop n inner s index σ.
Proof.
  induction n as [|n IH]; intros inner flag value s index σ Hs; [by destruct Hs|].
  rewrite (get_loop_S (S n)), iter_next_die_yield. rewrite get_loop_S in Hs |- *.
  destruct (iter_next n inner σ) as [[[x|] inner'] σ1|e σ1|f]; try done.
  destruct (num_strict_eq s index); [done|]. by apply IH.
Qed.

(** X17. [get(i)] on [defaultIfEmpty(s, v)] over a generator object
    returns the [i]-th of the elements of [s] (of [v] alone when [s] has
    none) and leaves the generator finished: leaving the loop of [get]
    closes the generator of [defaultIfEmpty], which closes its source. *)
Theorem get_on_defaultIfEmpty_finishes_the_source
  (isIterable : Value -> Store -> bool) (defineField : string -> string)
  g xs v (i : nat) σ :
  isIterable (VGen g) σ = true ->
  gens σ !! g = Some xs ->
  exists l σ1,
    defaultIfEmpty isIterable defineField (VGen g) v σ = Ok (VIterable l) σ1
    /\ forall fuel, length xs + 6 <= fuel ->
         get fuel l (VNum (Z.of_nat i)) σ1
         = Ok (default VUndefined (or_default xs v !! i)) (set_gen g [] σ1).
Proof.
  intros Hcheck Hg.
  destruct (defaultIfEmpty_is_default_of isIterable defineField (VGen g) v σ Hcheck)
    as (l & σ1 & Hcall & (f & Hl & Hf) & Hgens & _).
  exists l, σ1. split; [done|]. intros fuel Hfuel.
  assert (Hg1 : gens σ1 !! g = Some xs) by by rewrite Hgens.
  unfold get, bind, read_it. rewrite Hl.
  destruct fuel as [|[|[|fuel]]]; [lia|lia|lia|].
  rewrite (get_iterator_genfn _ _ _ _ Hf eq_refl). cbn [body start_generator].
  rewrite get_loop_S, iter_next_die_start.
  destruct fuel as [|fuel]; [lia|]. cbn [get_iterator]. rewrite Hg1.
  rewrite iter_next_gen, Hg1. destruct xs as [|x rest].
  - rewrite (set_gen_id g [] σ1 Hg1). destruct i as [|i]; [done|].
    cbn [num_strict_eq or_default]. rewrite get_loop_S.
    destruct (Z.eqb_spec 0 (Z.of_nat (S i))) as [E|NE]; [lia|].
    cbn [iter_next]. by destruct i.
  - cbn [or_default]. destruct i as [|i].
    + cbn [num_strict_eq]. simpl Z.eqb. cbn [iter_return].
      by rewrite gens_set_gen, set_gen_set_gen.
    + cbn [num_strict_eq]. destruct (Z.eqb_spec 0 (Z.of_nat (S i))) as [E|NE]; [lia|].
      replace (Z.of_nat (S i)) with ((0 + 1) + Z.of_nat i)%Z by lia.
      assert (Hin : get_loop (S (S fuel)) (IGen g) (0 + 1)%Z
                      (VNum ((0 + 1) + Z.of_nat i)) (set_gen g rest σ1)
                    = Ok (default VUndefined (rest !! i)) (set_gen g [] σ1)).
      { rewrite (get_loop_gen g _ rest); [|apply gens_set_gen|simpl in Hfuel; lia].
        by rewrite set_gen_set_gen. }
      rewrite get_loop_die_yield_settled; rewrite Hin; done.
Qed.

(** *** Instances *)

Lemma get_agrees_with_traversal_witness :
  exists σ'',
    get 5 0 (VNum (Z.of_nat 1)) sample_store
    = Ok (default VUndefined ([VNum 10; VNum 20; VNum 30] !! 1)) σ''
    /\ same_objects sample_store σ''
    /\ (length [VNum 10; VNum 20; VNum 30] <= 1 -> σ'' = sample_store).
Proof.
  apply (get_agrees_with_traversal 5 0 1 sample_store
           [VNum 10; VNum 20; VNum 30] sample_store).
  reflexivity.
Defined.

Lemma get_unreachable_index_witness :
  get 5 0 (VNum (-1)) sample_generator_store
  = Ok VUndefined (set_gen 0 [] sample_generator_store).
Proof.
  apply (get_unreachable_index 5 0 (VNum (-1)) sample_generator_store
           [VNum 1; VNum 2; VNum 3]).
  - intros [k Hk]. injection Hk. lia.
  - reflexivity.
Defined.

Lemma get_on_single_pass_finishes_producer_witness :
  get 5 0 (VNum (Z.of_nat 1)) sample_generator_store
  = Ok (VNum 2) (set_gen 0 [] sample_generator_store)
  /\ get 5 0 (VNum 0) (set_gen 0 [] sample_generator_store)
     = Ok VUndefined (set_gen 0 [] sample_generator_store).
Proof.
  apply (get_on_single_pass_finishes_producer 5 0 0 [VNum 1; VNum 2; VNum 3] 1
           (VNum 0) sample_generator_store).
  - reflexivity.
  - reflexivity.
  - simpl. lia.
Defined.

Lemma traversal_of_single_pass_is_one_shot_witness :
  traverse 6 (VIterable 0) sample_generator_store
  = Ok [VNum 1; VNum 2; VNum 3] (set_gen 0 [] sample_generator_store)
  /\ traverse 6 (VIterable 0) (set_gen 0 [] sample_generator_store)
     = Ok [] (set_gen 0 [] sample_generator_store).
Proof.
  apply (traversal_of_single_pass_is_one_shot 6 0 0 [VNum 1; VNum 2; VNum 3]
           sample_generator_store).
  - reflexivity.
  - reflexivity.
  - simpl. lia.
Defined.

Lemma construction_disturbs_nothing_witness :
  constructor isIterable_spec (VNum 3) sample_generator_store
  = Throw (BadArgumentError 1 "Iterable.<constructor>" "Iterable or Generator")
      sample_generator_store.
Proof.
  destruct (constructor isIterable_spec (VNum 3) sample_generator_store)
    as [v σ'|e σ'|f] eqn:E; try discriminate E.
  rewrite (proj2 (construction_disturbs_nothing isIterable_spec (VNum 3)
                    sample_generator_store) e σ' E) in E |- *.
  injection E as <-. reflexivity.
Defined.

Lemma iterable_of_generator_function_restarts_witness :
  exists l σ1,
    constructor isIterable_spec (VGenFn 0) sample_function_store = Ok (VIterable l) σ1
    /\ forall fuel, length [VNum 1; VNum 2] + 4 <= fuel ->
         traverse fuel (VIterable l) σ1 = Ok [VNum 1; VNum 2] σ1.
Proof.
  apply (iterable_of_generator_function_restarts isIterable_spec 0
           (mkGenFnCell (BYields [VNum 1; VNum 2]) false) [VNum 1; VNum 2]
           sample_function_store).
  - reflexivity.
  - reflexivity.
Defined.

Lemma absent_key_reads_undefined_witness :
  exists n, forall fuel, n <= fuel ->
    proxy_get (fun _ => true) fuel 0 (PKString "length") sample_store
    = Ok VUndefined sample_store.
Proof.
  apply (absent_key_reads_undefined (fun _ => true) sample_store 0 sample_array
           [VNum 10; VNum 20; VNum 30] (PKString "length")).
  - reflexivity.
  - constructor.
  - reflexivity.
Defined.

Lemma absent_key_may_drain_single_pass_witness :
  proxy_get (fun _ => true) 5 0 (PKString "1") sample_generator_store
  = Ok VUndefined (set_gen 0 [] sample_generator_store).
Proof.
  apply (absent_key_may_drain_single_pass (fun _ => true) sample_generator_store
           0 0 [VNum 1; VNum 2; VNum 3] (PKString "1") 5).
  - reflexivity.
  - reflexivity.
  - reflexivity.
  - simpl. lia.
Defined.

Lemma zip_method_throws_TypeError_witness :
  method_call isIterable_spec id (fun _ _ => ret VUndefined) 1 Op_zip 0 [] sample_store
  = Throw (TypeError "object is not iterable") sample_store.
Proof.
  apply (zip_method_throws_TypeError isIterable_spec id (fun _ _ => ret VUndefined)
           0 0 sample_array [] sample_store).
  - reflexivity.
  - reflexivity.
Defined.

Lemma zip_method_drains_its_argument_witness :
  method_call isIterable_spec id (fun _ args => ret (arg 0 args)) 5 Op_zip 0
    [VGen 7; VUndefined] sample_pair_store
  = Ok (VArray [sample_array; VNum 4; VNum 5]) (set_gen 7 [] sample_pair_store).
Proof.
  apply (zip_method_drains_its_argument isIterable_spec id
           (fun _ args => ret (arg 0 args)) 5 0 sample_array 7 [VNum 4; VNum 5]
           VUndefined sample_pair_store).
  - reflexivity.
  - reflexivity.
  - simpl. lia.
Defined.

Lemma defaultIfEmpty_follows_its_source_witness :
  exists l σ1,
    defaultIfEmpty isIterable_spec id (VGen 0) (VNum 9) sample_generator_store
    = Ok (VIterable l) σ1
    /\ forall σ2 fuel,
         same_objects σ1 σ2 ->
         settled (traverse fuel (VGen 0) σ2) ->
         traverse (fuel + 3) (VIterable l) σ2
         = defaulted (VNum 9) (traverse fuel (VGen 0) σ2).
Proof.
  apply (defaultIfEmpty_follows_its_source isIterable_spec id (VGen 0) (VNum 9)
           sample_generator_store).
  reflexivity.
Defined.

Lemma defaultIfEmpty_of_single_pass_defaults_the_second_time_witness :
  exists l σ1,
    defaultIfEmpty isIterable_spec id (VGen 0) (VNum 9) sample_generator_store
    = Ok (VIterable l) σ1
    /\ forall fuel, length [VNum 1; VNum 2; VNum 3] + 6 <= fuel ->
         traverse fuel (VIterable l) σ1
         = Ok (or_default [VNum 1; VNum 2; VNum 3] (VNum 9)) (set_gen 0 [] σ1)
         /\ traverse fuel (VIterable l) (set_gen 0 [] σ1)
            = Ok [VNum 9] (set_gen 0 [] σ1).
Proof.
  apply (defaultIfEmpty_of_single_pass_defaults_the_second_time isIterable_spec id
           0 [VNum 1; VNum 2; VNum 3] (VNum 9) sample_generator_store).
  - reflexivity.
  - reflexivity.
Defined.

Lemma defaultIfEmpty_of_multi_pass_is_multi_pass_witness :
  exists l σ1 n,
    defaultIfEmpty isIterable_spec id (VArray []) (VNum 9) sample_store
    = Ok (VIterable l) σ1
    /\ forall fuel, n <= fuel ->
         traverse fuel (VIterable l) σ1 = Ok (or_default [] (VNum 9)) σ1.
Proof.
  apply (defaultIfEmpty_of_multi_pass_is_multi_pass isIterable_spec id (VArray []) []
           (VNum 9) sample_store).
  - reflexivity.
  - constructor.
Defined.

Lemma defaultIfEmpty_twice_is_once_witness :
  exists l σ1,
    defaultIfEmpty isIterable_spec id sample_array (VNum 8) empty_store
    = Ok (VIterable l) σ1
    /\ (isIterable_spec (VIterable l) σ1 = true ->
        exists l2 σ2,
          defaultIfEmpty isIterable_spec id (VIterable l) (VNum 9) σ1
          = Ok (VIterable l2) σ2
          /\ forall fuel,
               settled (traverse fuel sample_array σ2) ->
               traverse (fuel + 6) (VIterable l2) σ2
               = defaulted (VNum 8) (traverse fuel sample_array σ2)
               /\ traverse (fuel + 6) (VIterable l2) σ2
                  = traverse (fuel + 3) (VIterable l) σ2).
Proof.
  apply (defaultIfEmpty_twice_is_once isIterable_spec id sample_array (VNum 8)
           (VNum 9) empty_store).
  reflexivity.
Defined.

Lemma get_on_defaultIfEmpty_finishes_the_source_witness :
  exists l σ1,
    defaultIfEmpty isIterable_spec id (VGen 0) (VNum 9) sample_generator_store
    = Ok (VIterable l) σ1
    /\ forall fuel, length [VNum 1; VNum 2; VNum 3] + 6 <= fuel ->
         get fuel l (VNum (Z.of_nat 0)) σ1
         = Ok (default VUndefined (or_default [VNum 1; VNum 2; VNum 3] (VNum 9) !! 0))
             (set_gen 0 [] σ1).
Proof.
  apply (get_on_defaultIfEmpty_finishes_the_source isIterable_spec id 0
           [VNum 1; VNum 2; VNum 3] (VNum 9) 0 sample_generator_store).
  - reflexivity.
  - reflexivity.
Defined.

End JsMoreFacts.

(** ** The two call shapes *)
Module CallShapeFacts.
Import Js JsFacts JsMore JsMoreFacts.

Lemma extends_refl σ : extends σ σ.
Proof. by split. Qed.

Lemma extends_trans σ1 σ2 σ3 : extends σ1 σ2 -> extends σ2 σ3 -> extends σ1 σ3.
Proof.
  intros (Hg & Hf & Hi) (Hg' & Hf' & Hi'). split; [by rewrite Hg'|].
  split; by etrans.
Qed.

Lemma extends_set_gen g rest σ σ' :
  extends σ σ' -> extends (set_gen g rest σ) (set_gen g rest σ').
Proof. intros (Hg & Hf & Hi). split; [|done]. simpl. by rewrite Hg. Qed.

Lemma get_iterator_extends fuel : forall v σ σ' iter σ1,
  extends σ σ' ->
  get_iterator fuel v σ = Ok iter σ1 -> get_iterator fuel v σ' = Ok iter σ'.
Proof.
  induction fuel as [|fuel IH]; intros v σ σ' iter σ1 Hext; [done|].
  pose proof Hext as (Hg & Hf & Hi). destruct v; simpl; try done.
  - by intros [= <- _].
  - by intros [= <- _].
  - destruct (genfns σ !! f) as [c|] eqn:Hc; [|done].
    rewrite (lookup_weaken _ _ _ _ Hc Hf).
    destruct (self_iter c); [|done]. by intros [= <- _].
  - rewrite Hg. destruct (gens σ !! g); [|done]. by intros [= <- _].
  - destruct (iterables σ !! l) as [it|] eqn:Hl; [|done].
    rewrite (lookup_weaken _ _ _ _ Hl Hi). by apply IH.
Qed.

Lemma iter_next_extends fuel : forall iter σ σ' r σ1,
  extends σ σ' ->
  iter_next fuel iter σ = Ok r σ1 ->
  exists σ1', iter_next fuel iter σ' = Ok r σ1' /\ extends σ1 σ1'.
Proof.
  induction fuel as [|fuel IH]; intros iter σ σ' r σ1 Hext; [done|].
  pose proof Hext as (Hg & Hf & Hi). destruct iter; cbn [iter_next].
  - destruct (xs !! idx); intros [= <- <-]; by eexists.
  - rewrite Hg. destruct (gens σ !! g) as [[|x rest]|]; [| |done].
    + intros [= <- <-]. by eexists.
    + intros [= <- <-]. eexists. split; [done|]. by apply extends_set_gen.
  - destruct rest; intros [= <- <-]; by eexists.
  - destruct (get_iterator fuel iterable σ) as [inner σ2|e σ2|f] eqn:Hit; [|done|done].
    apply get_iterator_Ok in Hit as Heq. subst σ2.
    rewrite (get_iterator_extends _ _ _ _ _ _ Hext Hit).
    destruct (iter_next fuel inner σ) as [[[i|] inner'] σ3|e σ3|f] eqn:Hn; [| |done|done].
    + destruct (IH _ _ _ _ _ Hext Hn) as (σ3' & -> & Hext3).
      intros [= <- <-]. by eexists.
    + destruct (IH _ _ _ _ _ Hext Hn) as (σ3' & -> & Hext3).
      intros [= <- <-]. by eexists.
  - destruct (iter_next fuel iter σ) as [[[i|] inner'] σ3|e σ3|f] eqn:Hn; [| |done|done].
    + destruct (IH _ _ _ _ _ Hext Hn) as (σ3' & -> & Hext3).
      intros [= <- <-]. by eexists.
    + destruct (IH _ _ _ _ _ Hext Hn) as (σ3' & -> & Hext3).
      intros [= <- <-]. by eexists.
  - intros [= <- <-]. by eexists.
  - intros [= <- <-]. by eexists.
Qed.

Lemma drain_extends fuel : forall iter σ σ' xs σ1,
  extends σ σ' ->
  drain fuel iter σ = Ok xs σ1 ->
  exists σ1', drain fuel iter σ' = Ok xs σ1' /\ extends σ1 σ1'.
Proof.
  induction fuel as [|fuel IH]; intros iter σ σ' xs σ1 Hext; [done|].
  rewrite !drain_S.
  destruct (iter_next fuel iter σ) as [[[x|] iter'] σ2|e σ2|f] eqn:Hn; [| |done|done].
  - destruct (iter_next_extends _ _ _ _ _ _ Hext Hn) as (σ2' & -> & Hext2).
    destruct (drain fuel iter' σ2) as [ys σ3|e σ3|f] eqn:Hd; [|done|done].
    destruct (IH _ _ _ _ _ Hext2 Hd) as (σ3' & -> & Hext3).
    intros [= <- <-]. by eexists.
  - destruct (iter_next_extends _ _ _ _ _ _ Hext Hn) as (σ2' & -> & Hext2).
    intros [= <- <-]. by eexists.
Qed.

Lemma traverse_extends fuel v σ σ' xs σ1 :
  extends σ σ' ->
  traverse fuel v σ = Ok xs σ1 ->
  exists σ1', traverse fuel v σ' = Ok xs σ1' /\ extends σ1 σ1'.
Proof.
  intros Hext. unfold traverse, bind.
  destruct (get_iterator fuel v σ) as [iter σ2|e σ2|f] eqn:Hit; [|done|done].
  apply get_iterator_Ok in Hit as Heq. subst σ2.
  rewrite (get_iterator_extends _ _ _ _ _ _ Hext Hit). by apply drain_extends.
Qed.


(** What the constructor leaves relates to what it found as [extends],
    unless it had to mark its argument. *)
Lemma constructor_extends isIterable s σ0 seq σ :
  constructor isIterable s σ0 = Ok seq σ ->
  (forall f c, s = VGenFn f -> genfns σ0 !! f = Some c -> self_iter c = true) ->
  extends σ0 σ.
Proof.
  intros Hnew Hmarked.
  destruct (constructor_Ok _ _ _ _ _ Hnew) as (σm & _ & -> & Hm).
  assert (Hm' : σm = σ0).
  { destruct Hm as [->|(f & c & -> & Hf & ->)]; [done|].
    pose proof (Hmarked f c eq_refl Hf) as Hself. destruct c as [b m].
    simpl in Hself. subst m. unfold set_genfn. simpl.
    rewrite insert_id by done. by destruct σ0. }
  subst σm. split; [done|]. split; [done|].
  simpl. apply insert_subseteq, fresh_iterable.
Qed.

Lemma traversable_is_marked n s σ0 xs σ1 :
  traverse n s σ0 = Ok xs σ1 ->
  forall f c, s = VGenFn f -> genfns σ0 !! f = Some c -> self_iter c = true.
Proof.
  intros Htr f c -> Hf. unfold traverse, bind in Htr.
  destruct n as [|n]; [done|]. simpl in Htr. rewrite Hf in Htr.
  by destruct (self_iter c).
Qed.

(** The result of [defaultIfEmpty(s, v)], called where [s] passes the
    check, traverses like [s] does in the store of the call. *)
Lemma defaultIfEmpty_traverses isIterable defineField s v σ σ0 n xs σ1 :
  isIterable s σ = true ->
  extends σ0 σ ->
  traverse n s σ0 = Ok xs σ1 ->
  exists a σa σa',
    defaultIfEmpty isIterable defineField s v σ = Ok (VIterable a) σa
    /\ traverse (n + 3) (VIterable a) σa = Ok (or_default xs v) σa'
    /\ gens σa' = gens σ1.
Proof.
  intros Hcheck Hext Htr.
  destruct (defaultIfEmpty_is_default_of isIterable defineField s v σ Hcheck)
    as (a & σa & Hcall & Hdef & Hg & Hi & Hf).
  assert (Hext' : extends σ0 σa).
  { apply (extends_trans _ σ); [done|]. by split. }
  destruct (traverse_extends _ _ _ _ _ _ Hext' Htr) as (σa' & Htr' & (Hg' & _)).
  exists a, σa, σa'. split; [done|]. split; [|done].
  rewrite (traverse_default_of σa a s v n Hdef); rewrite Htr'; done.
Qed.

(** C8. Let [new Iterable(s)] succeed, giving the wrapper
    [l]. Construction adds the wrapper and, on a generator function, the
    mark, nothing else. From then on, in every state in which the wrapper
    exists, the method shape on it and the static shape given [s] hand
    the same arguments to the same operator, for every operator that
    takes a source: they are the same computation; for [zip] the method
    shape with the array [its] is the static shape on [[s, ...its]].
    For [defaultIfEmpty], the operator whose text is at hand, the static
    shape called before the wrapper exists and the method shape called on
    the wrapper return Sequences that yield the same elements and advance
    the same producers, whenever [s] can be traversed and passes the
    check. When [s] does not pass the check on its own, as a generator
    function that no wrapper has marked, the static shape throws the
    bad-argument error where the method shape succeeds. The two shapes of
    [empty] call the operator with different arguments. *)
Theorem call_shapes_agree
  (isIterable : Value -> Store -> bool) (defineField : string -> string)
  (internal : Op -> list Value -> M Value) (fuel : nat) s σ0 seq σ :
  constructor isIterable s σ0 = Ok seq σ ->
  exists l, seq = VIterable l
    /\ iterables σ0 !! l = None
    /\ iterables σ !! l = Some s
    /\ ((forall f, s <> VGenFn f) -> σ = set_iterable l s σ0)
    /\ (forall f c, s = VGenFn f -> genfns σ0 !! f = Some c ->
          σ = set_iterable l s (set_genfn f (mkGenFnCell (body c) true) σ0))
    /\ (forall σ' op args,
          iterables σ' !! l = Some s -> takes_source op = true ->
          method_call isIterable defineField internal fuel op l args σ'
          = static_call isIterable defineField internal op (s :: args) σ')
    /\ (forall σ' its fn,
          iterables σ' !! l = Some s -> length its + 1 < fuel ->
          method_call isIterable defineField internal fuel Op_zip l [VArray its; fn] σ'
          = static_call isIterable defineField internal Op_zip [VArray (s :: its); fn] σ')
    /\ (forall v n xs σ1,
          isIterable s σ0 = true -> isIterable s σ = true ->
          traverse n s σ0 = Ok xs σ1 ->
          exists a σa σa' b σb σb',
            static_call isIterable defineField internal Op_defaultIfEmpty [s; v] σ0
            = Ok (VIterable a) σa
            /\ method_call isIterable defineField internal fuel Op_defaultIfEmpty l [v] σ
               = Ok (VIterable b) σb
            /\ traverse (n + 3) (VIterable a) σa = Ok (or_default xs v) σa'
            /\ traverse (n + 3) (VIterable b) σb = Ok (or_default xs v) σb'
            /\ gens σa' = gens σ1 /\ gens σb' = gens σ1)
    /\ (forall v,
          isIterable s σ0 = false ->
          static_call isIterable defineField internal Op_defaultIfEmpty [s; v] σ0
          = Throw (BadArgumentError 1 (defineField "defaultIfEmpty") "Iterable") σ0
          /\ (isIterable s σ = true ->
              exists b σb,
                method_call isIterable defineField internal fuel Op_defaultIfEmpty l [v] σ
                = Ok (VIterable b) σb))
    /\ (forall σ' args,
          method_call isIterable defineField internal fuel Op_empty l args σ'
          = internal Op_empty [VIterable l] σ'
          /\ static_call isIterable defineField internal Op_empty args σ'
             = internal Op_empty [] σ').
Proof.
  intros Hnew.
  destruct (constructor_Ok _ _ _ _ _ Hnew) as (σm & -> & Hσ & Hm).
  set (l := fresh (dom (iterables σ0))) in *.
  assert (Hl : iterables σ !! l = Some s).
  { rewrite Hσ. apply iterables_set_iterable. }
  assert (Hmethod : forall v σ',
            iterables σ' !! l = Some s ->
            method_call isIterable defineField internal fuel Op_defaultIfEmpty l [v] σ'
            = defaultIfEmpty isIterable defineField s v σ').
  { intros v σ' Hl'. unfold method_call, bind, read_it. by rewrite Hl'. }
  exists l. split; [done|]. split; [apply fresh_iterable|]. split; [done|].
  split; [|split; [|split; [|split; [|split; [|split]]]]].
  - intros Hnot. destruct Hm as [->|(f & c & -> & _)]; [done|]. by destruct (Hnot f).
  - intros f c -> Hf.
    rewrite (constructor_generator_function isIterable f c σ0 Hf) in Hnew.
    by injection Hnew as <-.
  - intros σ' op args Hl' Hop.
    destruct op; try discriminate Hop;
      unfold method_call, static_call, bind, read_it; rewrite Hl'; reflexivity.
  - intros σ' its fn Hl' Hfuel.
    unfold method_call, static_call, bind, read_it. rewrite Hl'.
    unfold arg. simpl. by rewrite traverse_array.
  - intros v n xs σ1 Hcheck0 Hcheck Htr.
    pose proof (constructor_extends _ _ _ _ _ Hnew (traversable_is_marked _ _ _ _ _ Htr))
      as Hext.
    destruct (defaultIfEmpty_traverses isIterable defineField s v σ0 σ0 n xs σ1
                Hcheck0 (extends_refl σ0) Htr) as (a & σa & σa' & Ha & Hta & Hga).
    destruct (defaultIfEmpty_traverses isIterable defineField s v σ σ0 n xs σ1
                Hcheck Hext Htr) as (b & σb & σb' & Hb & Htb & Hgb).
    exists a, σa, σa', b, σb, σb'. rewrite (Hmethod v σ Hl).
    by repeat (split; [done|]).
  - intros v Hcheck0. split.
    + unfold static_call, defaultIfEmpty, bind, IterableCheck, FIELD.
      change (arg 0 [s; v]) with s. by rewrite Hcheck0.
    + intros Hcheck. rewrite (Hmethod v σ Hl).
      destruct (defaultIfEmpty_is_default_of isIterable defineField s v σ Hcheck)
        as (b & σb & Hb & _). by exists b, σb.
  - intros σ' args. by split.
Qed.


Lemma call_shapes_agree_witness :
  exists a σa σa' b σb σb',
    static_call isIterable_spec id (fun _ _ => ret VUndefined) Op_defaultIfEmpty
      [sample_array; VNum 7] empty_store
    = Ok (VIterable a) σa
    /\ method_call isIterable_spec id (fun _ _ => ret VUndefined) 5 Op_defaultIfEmpty
         0 [VNum 7] sample_store
       = Ok (VIterable b) σb
    /\ traverse (5 + 3) (VIterable a) σa
       = Ok (or_default [VNum 10; VNum 20; VNum 30] (VNum 7)) σa'
    /\ traverse (5 + 3) (VIterable b) σb
       = Ok (or_default [VNum 10; VNum 20; VNum 30] (VNum 7)) σb'
    /\ gens σa' = gens empty_store /\ gens σb' = gens empty_store.
Proof.
  destruct (call_shapes_agree isIterable_spec id (fun _ _ => ret VUndefined) 5
              sample_array empty_store (VIterable 0) sample_store eq_refl)
    as (l & Hseq & _ & _ & _ & _ & _ & _ & Hsame & _).
  injection Hseq as <-.
  apply (Hsame (VNum 7) 5 [VNum 10; VNum 20; VNum 30] empty_store); reflexivity.
Defined.

(** The two shapes differ on a generator function that no wrapper has
    marked yet: [Iterable.defaultIfEmpty(s, 7)] throws the
    bad-argument error, [new Iterable(s).defaultIfEmpty(7)] returns a
    Sequence that yields what [s] yields. *)
Lemma static_shape_rejects_unwrapped_generator_function :
  static_call isIterable_spec id (fun _ _ => ret VUndefined) Op_defaultIfEmpty
    [VGenFn 0; VNum 7] sample_function_store
  = Throw (BadArgumentError 1 "defaultIfEmpty" "Iterable") sample_function_store
  /\ exists l σ seq σ1,
       constructor isIterable_spec (VGenFn 0) sample_function_store = Ok (VIterable l) σ
       /\ method_call isIterable_spec id (fun _ _ => ret VUndefined) 5 Op_defaultIfEmpty
            l [VNum 7] σ
          = Ok seq σ1
       /\ traverse 7 seq σ1 = Ok [VNum 1; VNum 2] σ1.
Proof.
  split; [reflexivity|]. eexists _, _, _, _.
  split; [reflexivity|]. split; reflexivity.
Qed.

End CallShapeFacts.
